(** * Google Vertex supervised fine-tuning recipe: transcript conversion,
      episode-wise train/validation split and dataset upload

    Shallow embedding of the code cells of
    [recipes/supervised_fine_tuning/metrics/google-vertex/google_vertex.ipynb]:
    [role_map], [merge_messages], [render_chat_message],
    [inference_to_google], the [google_payloads] loop, the split cell and
    [upload_dataset_to_gcp].

    Python exceptions are explicit in the result type ([Raise]); a
    [return None] that follows [warnings.warn] is [Skip]; mutable Python
    lists and dicts are objects in a store where a statement depends on
    aliasing ([merge_messages_store]). *)

From Stdlib Require Import ZArith QArith Qround Ascii String List Permutation.
From stdpp Require Import gmap strings list.

Set Warnings "-register-all".

Local Open Scope string_scope.
Local Open Scope list_scope.

(** ** JSON values

    The value a tool call carries as its arguments: either what
    [json.loads] builds or a mapping already structured by the caller.
    An object keeps its fields in insertion order, as a Python dict does. *)

Inductive json : Type :=
| JNull
| JBool (b : bool)
| JInt (z : Z)
| JFloat (lexeme : string)
| JStr (s : string)
| JArray (items : list json)
| JObject (fields : list (string * json)).

(** ** A decoder for JSON text

    [Json.loads] follows the grammar the scanner of Python's [json] module
    accepts (strict mode): leading and trailing white space, the literals
    [null], [true], [false], [NaN], [Infinity], [-Infinity], numbers,
    strings with the two-character escapes, arrays and objects, nothing
    after the value. Text is a list of bytes. A number with a fraction or
    an exponent is kept as its lexeme; [\u] escapes are decoded below
    U+0080 only. [None] stands for [json.JSONDecodeError].

    The conversion functions below do not depend on this decoder: they take
    the decoder as a parameter, and [Json.loads] instantiates it. *)

Module Json.

Definition dquote : ascii := "034"%char.
Definition backslash : ascii := "092"%char.

Definition is_ws (c : ascii) : bool :=
  let n := nat_of_ascii c in
  Nat.eqb n 32 || Nat.eqb n 9 || Nat.eqb n 10 || Nat.eqb n 13.

Definition is_digit (c : ascii) : bool :=
  let n := nat_of_ascii c in Nat.leb 48 n && Nat.leb n 57.

Definition digit_val (c : ascii) : Z := Z.of_nat (nat_of_ascii c) - 48.

Fixpoint skip_ws (s : list ascii) : list ascii :=
  match s with
  | c :: rest => if is_ws c then skip_ws rest else s
  | [] => []
  end.

(** [span_digits s] splits off the longest prefix of decimal digits. *)
Fixpoint span_digits (s : list ascii) : list ascii * list ascii :=
  match s with
  | c :: rest =>
      if is_digit c
      then let '(ds, tl) := span_digits rest in (c :: ds, tl)
      else ([], s)
  | [] => ([], [])
  end.

Definition digits_to_Z (ds : list ascii) : Z :=
  fold_left (fun acc c => 10 * acc + digit_val c)%Z ds 0%Z.

Definition chars (s : string) : list ascii := list_ascii_of_string s.
Definition text (l : list ascii) : string := string_of_list_ascii l.

(** [strip_prefix p s] is the rest of [s] after the prefix [p]. *)
Fixpoint strip_prefix (p s : list ascii) : option (list ascii) :=
  match p, s with
  | [], _ => Some s
  | a :: p', b :: s' => if Ascii.eqb a b then strip_prefix p' s' else None
  | _ :: _, [] => None
  end.

(** The integer part: an optional sign is taken by the caller; then a
    single zero, or a non-zero digit and any digits. *)
Definition scan_int (s : list ascii) : option (list ascii * list ascii) :=
  match s with
  | c :: rest =>
      if Ascii.eqb c "0" then Some ([c], rest)
      else if is_digit c
           then let '(ds, tl) := span_digits rest in Some (c :: ds, tl)
           else None
  | [] => None
  end.

(** The fraction: a dot and one digit or more; a dot with no digit after
    it is left in the input. *)
Definition scan_frac (s : list ascii) : list ascii * list ascii :=
  match s with
  | c :: rest =>
      if Ascii.eqb c "." then
        match span_digits rest with
        | ([], _) => ([], s)
        | (ds, tl) => (c :: ds, tl)
        end
      else ([], s)
  | [] => ([], [])
  end.

(** The exponent: e or E, an optional sign, one digit or more. *)
Definition scan_exp (s : list ascii) : list ascii * list ascii :=
  match s with
  | c :: rest =>
      if Ascii.eqb c "e" || Ascii.eqb c "E" then
        let '(sign, rest') :=
          match rest with
          | d :: r => if Ascii.eqb d "-" || Ascii.eqb d "+"
                      then ([d], r) else ([], rest)
          | [] => ([], rest)
          end in
        match span_digits rest' with
        | ([], _) => ([], s)
        | (ds, tl) => (c :: sign ++ ds, tl)
        end
      else ([], s)
  | [] => ([], [])
  end.

Definition scan_number (s : list ascii) : option (json * list ascii) :=
  let '(neg, s1) :=
    match s with
    | c :: rest => if Ascii.eqb c "-" then (true, rest) else (false, s)
    | [] => (false, s)
    end in
  match scan_int s1 with
  | None => None
  | Some (ip, s2) =>
      let '(fp, s3) := scan_frac s2 in
      let '(ep, s4) := scan_exp s3 in
      match fp, ep with
      | [], [] =>
          let z := digits_to_Z ip in
          Some (JInt (if neg then (- z)%Z else z), s4)
      | _, _ =>
          Some (JFloat (text ((if neg then ["-"%char] else []) ++ ip ++ fp ++ ep)), s4)
      end
  end.

Definition hex_val (c : ascii) : option nat :=
  let n := nat_of_ascii c in
  if Nat.leb 48 n && Nat.leb n 57 then Some (n - 48)
  else if Nat.leb 65 n && Nat.leb n 70 then Some (n - 55)
  else if Nat.leb 97 n && Nat.leb n 102 then Some (n - 87)
  else None.

Definition unescape (c : ascii) : option ascii :=
  if Ascii.eqb c dquote then Some dquote
  else if Ascii.eqb c backslash then Some backslash
  else if Ascii.eqb c "/" then Some "/"%char
  else if Ascii.eqb c "b" then Some "008"%char
  else if Ascii.eqb c "f" then Some "012"%char
  else if Ascii.eqb c "n" then Some "010"%char
  else if Ascii.eqb c "r" then Some "013"%char
  else if Ascii.eqb c "t" then Some "009"%char
  else None.

(** The body of a string after its opening quote, up to the closing one.
    A raw control character ends the scan with an error. *)
Fixpoint scan_string (s : list ascii) : option (list ascii * list ascii) :=
  match s with
  | [] => None
  | c :: rest =>
      if Ascii.eqb c dquote then Some ([], rest)
      else if Ascii.eqb c backslash then
        match rest with
        | [] => None
        | e :: rest' =>
            if Ascii.eqb e "u" then
              match rest' with
              | h1 :: h2 :: h3 :: h4 :: rest'' =>
                  match hex_val h1, hex_val h2, hex_val h3, hex_val h4 with
                  | Some 0, Some 0, Some a, Some b =>
                      if Nat.ltb a 8 then
                        match scan_string rest'' with
                        | Some (body, tl) => Some (ascii_of_nat (16 * a + b) :: body, tl)
                        | None => None
                        end
                      else None
                  | _, _, _, _ => None
                  end
              | _ => None
              end
            else
              match unescape e with
              | Some x =>
                  match scan_string rest' with
                  | Some (body, tl) => Some (x :: body, tl)
                  | None => None
                  end
              | None => None
              end
        end
      else if Nat.ltb (nat_of_ascii c) 32 then None
      else
        match scan_string rest with
        | Some (body, tl) => Some (c :: body, tl)
        | None => None
        end
  end.

(** Storing a key in a dict: a key already present keeps its position and
    takes the new value. *)
Fixpoint dict_set (k : string) (v : json) (d : list (string * json))
  : list (string * json) :=
  match d with
  | [] => [(k, v)]
  | (k', v') :: d' =>
      if String.eqb k k' then (k, v) :: d' else (k', v') :: dict_set k v d'
  end.

(** [scan_value], [scan_items] (after an array's first element position)
    and [scan_fields] (at a property name). Every nested call spends one
    unit of [fuel] and has consumed at least one character. *)
Fixpoint scan_value (fuel : nat) (s : list ascii) : option (json * list ascii) :=
  match fuel with
  | O => None
  | S fuel' =>
      match s with
      | [] => None
      | c :: rest =>
          if Ascii.eqb c dquote then
            match scan_string rest with
            | Some (body, tl) => Some (JStr (text body), tl)
            | None => None
            end
          else if Ascii.eqb c "{" then
            match skip_ws rest with
            | d :: tl =>
                if Ascii.eqb d "}" then Some (JObject [], tl)
                else scan_fields fuel' [] (d :: tl)
            | [] => None
            end
          else if Ascii.eqb c "[" then
            match skip_ws rest with
            | d :: tl =>
                if Ascii.eqb d "]" then Some (JArray [], tl)
                else scan_items fuel' [] (d :: tl)
            | [] => None
            end
          else
            match strip_prefix (chars "null") s with
            | Some tl => Some (JNull, tl)
            | None =>
            match strip_prefix (chars "true") s with
            | Some tl => Some (JBool true, tl)
            | None =>
            match strip_prefix (chars "false") s with
            | Some tl => Some (JBool false, tl)
            | None =>
            match scan_number s with
            | Some r => Some r
            | None =>
            match strip_prefix (chars "NaN") s with
            | Some tl => Some (JFloat "NaN", tl)
            | None =>
            match strip_prefix (chars "Infinity") s with
            | Some tl => Some (JFloat "Infinity", tl)
            | None =>
            match strip_prefix (chars "-Infinity") s with
            | Some tl => Some (JFloat "-Infinity", tl)
            | None => None
            end end end end end end end
      end
  end

with scan_items (fuel : nat) (acc : list json) (s : list ascii)
  : option (json * list ascii) :=
  match fuel with
  | O => None
  | S fuel' =>
      match scan_value fuel' s with
      | None => None
      | Some (v, s1) =>
          match skip_ws s1 with
          | d :: tl =>
              if Ascii.eqb d "]" then Some (JArray (acc ++ [v]), tl)
              else if Ascii.eqb d "," then scan_items fuel' (acc ++ [v]) (skip_ws tl)
              else None
          | [] => None
          end
      end
  end

with scan_fields (fuel : nat) (acc : list (string * json)) (s : list ascii)
  : option (json * list ascii) :=
  match fuel with
  | O => None
  | S fuel' =>
      match s with
      | q :: s0 =>
          if Ascii.eqb q dquote then
            match scan_string s0 with
            | None => None
            | Some (key, s1) =>
                match skip_ws s1 with
                | c :: s2 =>
                    if Ascii.eqb c ":" then
                      match scan_value fuel' (skip_ws s2) with
                      | None => None
                      | Some (v, s3) =>
                          let acc' := dict_set (text key) v acc in
                          match skip_ws s3 with
                          | d :: tl =>
                              if Ascii.eqb d "}" then Some (JObject acc', tl)
                              else if Ascii.eqb d ","
                                   then scan_fields fuel' acc' (skip_ws tl)
                                   else None
                          | [] => None
                          end
                      end
                    else None
                | [] => None
                end
            end
          else None
      | [] => None
      end
  end.

Definition loads (s : string) : option json :=
  let cs := chars s in
  match scan_value (S (2 * length cs)) (skip_ws cs) with
  | Some (v, tl) =>
      match skip_ws tl with
      | [] => Some v
      | _ :: _ => None
      end
  | None => None
  end.

End Json.

(** ** Data model *)

(** The exceptions the cells can raise. *)
Inductive exn : Type :=
| JSONDecodeError (doc : string)      (* json.loads on malformed text *)
| KeyError (key : string)             (* a dict or column lookup that misses *)
| PreconditionFailed (name : string)  (* if_generation_match=0 on an existing object *)
| NotFound (name : string)            (* a bucket that does not exist *)
| TransportError.                     (* the storage service cannot be reached *)

(** A content block; [Unknown] is any object none of the [isinstance]
    tests recognises. The [raw_arguments] of a tool call are a Python
    value: a [str], here [JStr], holding JSON text, or a value that is
    structured already. *)
Inductive block : Type :=
| Text (text : string)
| RawText (value : string)
| Thought (text : string)
| ToolCall (name : string) (raw_arguments : json)
| ToolResult (name : string) (result : json)
| Unknown (type_name : string).

Definition block_type (blk : block) : string :=
  match blk with
  | Text _ => "Text"
  | RawText _ => "RawText"
  | Thought _ => "Thought"
  | ToolCall _ _ => "ToolCall"
  | ToolResult _ _ => "ToolResult"
  | Unknown n => n
  end.

Record Message : Type := { msg_role : string; content : list block }.

Record ModelInput : Type := { system : option string; messages : list Message }.

Record Inference : Type :=
  { input : ModelInput; output : list block; episode_id : N }.

(** A Google part: [{"text": t}], [{"functionCall": {"name", "args"}}] or
    [{"functionResponse": {"name", "response": {"result": r}}}]. *)
Inductive part : Type :=
| PText (text : string)
| PFunctionCall (name : string) (args : json)
| PFunctionResponse (name : string) (result : json).

Record Turn : Type := { role : string; parts : list part }.

Record GoogleMessages : Type :=
  { contents : list Turn; systemInstruction : option Turn }.

Record Payload : Type :=
  { google_messages : GoogleMessages; payload_episode_id : N }.

(** What [warnings.warn] is called with. *)
Inductive warning : Type :=
| UnsupportedBlock (blk_type : string) (in_role : string)
| UnsupportedOutputBlock (blk_type : string).

(** The three ways a conversion function ends: a value, [return None]
    after a warning, or an exception that leaves the function. *)
Inductive result (A : Type) : Type :=
| Ok (a : A)
| Skip (w : warning)
| Raise (e : exn).

Arguments Ok {A} a.
Arguments Skip {A} w.
Arguments Raise {A} e.

Definition bind {A B : Type} (r : result A) (k : A -> result B) : result B :=
  match r with
  | Ok a => k a
  | Skip w => Skip w
  | Raise e => Raise e
  end.

Notation "'let*' x ':=' r 'in' k" := (bind r (fun x => k))
  (at level 10, x name, r at level 100, k at level 200).

(** ** Conversion to the Vertex format *)

(** [role_map[role]]; [None] is the [KeyError] of a role outside the dict. *)
Definition role_map (role : string) : option string :=
  if String.eqb role "user" then Some "user"
  else if String.eqb role "assistant" then Some "model"
  else if String.eqb role "system" then Some "system"
  else None.

(** One iteration of the loop of [merge_messages]: [merged[-1]] takes the
    parts of [msg] when the roles agree, else a new turn is appended. *)
Definition merge_step (merged : list Turn) (msg : Turn) : list Turn :=
  match last merged with
  | Some top =>
      if String.eqb (role top) (role msg)
      then <[pred (length merged) := {| role := role top; parts := parts top ++ parts msg |}]> merged
      else merged ++ [{| role := role msg; parts := parts msg |}]
  | None => merged ++ [{| role := role msg; parts := parts msg |}]
  end.

Definition merge_messages (messages : list Turn) : list Turn :=
  fold_left merge_step messages [].

Definition think (t : string) : string := "<think>" +:+ t +:+ "</think>".

Section Converter.

(** [json.loads]; [None] when it raises [JSONDecodeError]. *)
Variable json_loads : string -> option json.

(** [args = blk.raw_arguments; if isinstance(args, str): args = json.loads(args)] *)
Definition normalize_arguments (args : json) : result json :=
  match args with
  | JStr s =>
      match json_loads s with
      | Some v => Ok v
      | None => Raise (JSONDecodeError s)
      end
  | _ => Ok args
  end.

(** The [if]/[elif] chain of [render_chat_message] on one block. *)
Definition render_block (role : string) (blk : block) : result part :=
  match blk with
  | Text t => Ok (PText t)
  | RawText v => Ok (PText v)
  | Thought t => Ok (PText (think t))
  | ToolCall name args =>
      if String.eqb role "assistant"
      then let* a := normalize_arguments args in Ok (PFunctionCall name a)
      else Skip (UnsupportedBlock (block_type blk) role)
  | ToolResult name r =>
      if String.eqb role "user"
      then Ok (PFunctionResponse name r)
      else Skip (UnsupportedBlock (block_type blk) role)
  | Unknown _ => Skip (UnsupportedBlock (block_type blk) role)
  end.

(** The [for blk in content_blocks] loop, [parts] being the list built
    so far. *)
Fixpoint render_blocks (role : string) (content_blocks : list block)
    (parts : list part) : result (list part) :=
  match content_blocks with
  | [] => Ok parts
  | blk :: rest =>
      let* p := render_block role blk in
      render_blocks role rest (parts ++ [p])
  end.

Definition render_chat_message (role : string) (content_blocks : list block)
  : result Turn :=
  let* parts := render_blocks role content_blocks [] in
  match role_map role with
  | Some r => Ok {| role := r; parts := parts |}
  | None => Raise (KeyError role)
  end.

(** The chain of the output loop of [inference_to_google]. *)
Definition render_output_block (blk : block) : result part :=
  match blk with
  | Text t => Ok (PText t)
  | Thought t => Ok (PText (think t))
  | ToolCall name args =>
      let* a := normalize_arguments args in Ok (PFunctionCall name a)
  | _ => Skip (UnsupportedOutputBlock (block_type blk))
  end.

Fixpoint render_output (blocks : list block) (out_parts : list part)
  : result (list part) :=
  match blocks with
  | [] => Ok out_parts
  | blk :: rest =>
      let* p := render_output_block blk in
      render_output rest (out_parts ++ [p])
  end.

(** Step 2 of [inference_to_google]: the loop over [model_input.messages],
    [rendered_msgs] being the list built so far. *)
Fixpoint render_messages (msgs : list Message) (rendered_msgs : list Turn)
  : result (list Turn) :=
  match msgs with
  | [] => Ok rendered_msgs
  | msg :: rest =>
      let* rendered := render_chat_message (msg_role msg) (content msg) in
      render_messages rest (rendered_msgs ++ [rendered])
  end.

(** Step 1: [if model_input.system:] is false for [None] and for the
    empty string. *)
Definition system_instruction (model_input : ModelInput) : option Turn :=
  match system model_input with
  | Some s =>
      if String.eqb s "" then None
      else Some {| role := "system"; parts := [PText s] |}
  | None => None
  end.

(** [rendered_msgs] as it stands when [merge_messages] is called. *)
Definition rendered_msgs (inf : Inference) : result (list Turn) :=
  let* msgs := render_messages (messages (input inf)) [] in
  let* out_parts := render_output (output inf) [] in
  Ok (msgs ++ [{| role := "model"; parts := out_parts |}]).

Definition inference_to_google (inf : Inference) : result Payload :=
  let system_instruction := system_instruction (input inf) in
  let* rendered := rendered_msgs inf in
  Ok {| google_messages :=
          {| contents := merge_messages rendered;
             systemInstruction := system_instruction |};
        payload_episode_id := episode_id inf |}.

(** The state of the cell that fills [google_payloads]: the payloads
    appended so far, the warnings issued, and the exception that stopped
    the loop, if one did. *)
Record Conversion : Type :=
  { google_payloads : list Payload;
    warnings : list warning;
    raised : option exn }.

Fixpoint convert_loop (rendered_inferences : list Inference)
    (payloads : list Payload) (warned : list warning) : Conversion :=
  match rendered_inferences with
  | [] => {| google_payloads := payloads; warnings := warned; raised := None |}
  | inf :: rest =>
      match inference_to_google inf with
      | Ok payload => convert_loop rest (payloads ++ [payload]) warned
      | Skip w => convert_loop rest payloads (warned ++ [w])
      | Raise e =>
          {| google_payloads := payloads; warnings := warned; raised := Some e |}
      end
  end.

Definition convert_all (rendered_inferences : list Inference) : Conversion :=
  convert_loop rendered_inferences [] [].

(** *** Vocabulary of the statements *)

(** Where a block is rendered: in a message of a given role, or in the
    output. *)
Inductive place : Type :=
| InMessage (role : string)
| InOutput.

Definition render_at (pl : place) (blk : block) : result part :=
  match pl with
  | InMessage role => render_block role blk
  | InOutput => render_output_block blk
  end.

(** The block variants a place supports. *)
Definition supported (pl : place) (blk : block) : bool :=
  match pl, blk with
  | _, Text _ | _, Thought _ => true
  | InMessage _, RawText _ => true
  | InOutput, RawText _ => false
  | InMessage role, ToolCall _ _ => String.eqb role "assistant"
  | InOutput, ToolCall _ _ => true
  | InMessage role, ToolResult _ _ => String.eqb role "user"
  | InOutput, ToolResult _ _ => false
  | _, Unknown _ => false
  end.

(** The warning issued for an unsupported block. *)
Definition unsupported_warning (pl : place) (blk : block) : warning :=
  match pl with
  | InMessage role => UnsupportedBlock (block_type blk) role
  | InOutput => UnsupportedOutputBlock (block_type blk)
  end.

(** A tool call whose arguments are a text that [json.loads] rejects. *)
Definition malformed (blk : block) : bool :=
  match blk with
  | ToolCall _ (JStr s) => negb (bool_decide (is_Some (json_loads s)))
  | _ => false
  end.

(** A block that becomes a part. *)
Definition block_ok (pl : place) (blk : block) : bool :=
  supported pl blk && negb (malformed blk).

(** A message that becomes a turn. *)
Definition message_ok (msg : Message) : bool :=
  forallb (block_ok (InMessage (msg_role msg))) (content msg)
  && bool_decide (is_Some (role_map (msg_role msg))).

(** A record every message and output block of which is rendered. *)
Definition valid (inf : Inference) : bool :=
  forallb message_ok (messages (input inf))
  && forallb (block_ok InOutput) (output inf).

(** [reached inf pl blk]: the conversion of [inf] gets as far as the
    block [blk] at [pl], every message and block before it having been
    rendered. *)
Inductive reached (inf : Inference) : place -> block -> Prop :=
| reached_in_message ms1 m ms2 bs1 b bs2 :
    messages (input inf) = ms1 ++ m :: ms2 ->
    content m = bs1 ++ b :: bs2 ->
    forallb message_ok ms1 = true ->
    forallb (block_ok (InMessage (msg_role m))) bs1 = true ->
    reached inf (InMessage (msg_role m)) b
| reached_in_output bs1 b bs2 :
    forallb message_ok (messages (input inf)) = true ->
    output inf = bs1 ++ b :: bs2 ->
    forallb (block_ok InOutput) bs1 = true ->
    reached inf InOutput b.

(** A block of the record, wherever it stands. *)
Inductive occurs (inf : Inference) : place -> block -> Prop :=
| occurs_in_message m b :
    m ∈ messages (input inf) -> b ∈ content m ->
    occurs inf (InMessage (msg_role m)) b
| occurs_in_output b :
    b ∈ output inf -> occurs inf InOutput b.

End Converter.

(** The first failure of a list of results, or all their values. *)
Fixpoint collect {A} (rs : list (result A)) : result (list A) :=
  match rs with
  | [] => Ok []
  | r :: rs' => let* a := r in let* l := collect rs' in Ok (a :: l)
  end.

(** [stops_with r x]: if [r] is a failure, [x] is that failure. *)
Definition stops_with {A B} (r : result A) (x : result B) : Prop :=
  match r with
  | Ok _ => True
  | Skip w => x = Skip w
  | Raise e => x = Raise e
  end.

(** [merge_messages] seen from the front of the list: [x] is the turn
    being grown. *)
Fixpoint merge_from (x : Turn) (l : list Turn) : list Turn :=
  match l with
  | [] => [x]
  | y :: l' =>
      if String.eqb (role x) (role y)
      then merge_from {| role := role x; parts := parts x ++ parts y |} l'
      else x :: merge_from y l'
  end.

(** No two neighbours have the same role. *)
Fixpoint alternating (l : list Turn) : Prop :=
  match l with
  | x :: l' =>
      match l' with
      | y :: _ => role x <> role y /\ alternating l'
      | [] => True
      end
  | [] => True
  end.

(** ** Train and validation split *)

(** [Series.unique()]: the distinct values in order of first appearance. *)
Fixpoint unique (l : list N) : list N :=
  match l with
  | [] => []
  | x :: l' => x :: filter (λ y, y ≠ x) (unique l')
  end.

(** Python's [int] on a number: truncation toward zero. The fraction is a
    rational here, so the product is exact where the cell rounds to a
    double. *)
Definition int_of_Q (q : Q) : Z := Z.quot (Qnum q) (Zpos (Qden q)).

(** Where a slice bound [k] falls in a sequence of length [n]: a negative
    bound counts from the end, and both are clipped to the sequence. *)
Definition slice_bound (k : Z) (n : nat) : nat :=
  if (k <? 0)%Z then Z.to_nat (Z.max 0 (Z.of_nat n + k))
  else Nat.min (Z.to_nat k) n.

(** [a[:k]] and [a[k:]] *)
Definition slice_to {A} (k : Z) (a : list A) : list A :=
  take (slice_bound k (length a)) a.
Definition slice_from {A} (k : Z) (a : list A) : list A :=
  drop (slice_bound k (length a)) a.

(** [Series.isin(values)] on one row. *)
Definition isin (values : list N) (row : Payload) : bool :=
  bool_decide (payload_episode_id row ∈ values).

Definition VAL_FRACTION : Q := 2 # 10.

Section Split.

(** [np.random.seed(seed); np.random.shuffle(a)]: the order it leaves
    [a] in. *)
Variable shuffle : nat -> list N -> list N.

Definition split_index (n : nat) (val_fraction : Q) : Z :=
  int_of_Q (inject_Z (Z.of_nat n) * (1 - val_fraction)).

(** The split cell on the frame built from [google_payloads]. A frame
    built from no payload has no column, and [df["episode_id"]] raises
    [KeyError]. *)
Definition split (seed : nat) (val_fraction : Q) (df : list Payload)
  : result (list Payload * list Payload) :=
  match df with
  | [] => Raise (KeyError "episode_id")
  | _ :: _ =>
      let unique_episode_ids := shuffle seed (unique (map payload_episode_id df)) in
      let split_index := split_index (length unique_episode_ids) val_fraction in
      let train_episode_ids := slice_to split_index unique_episode_ids in
      let val_episode_ids := slice_from split_index unique_episode_ids in
      let train_df := List.filter (isin train_episode_ids) df in
      let val_df := List.filter (isin val_episode_ids) df in
      Ok (train_df, val_df)
  end.

(** The cell as written: seed 42 and [VAL_FRACTION]. *)
Definition split_cell (df : list Payload) := split 42 VAL_FRACTION df.

End Split.

(** The split cell for a given value [k] of [split_index]. The cell
    computes [int(len(unique_episode_ids) * (1 - VAL_FRACTION))] in double
    precision, which [split_index] above replaces by exact arithmetic;
    here the index is any integer, so that what is proved of [split_at]
    for every [k] holds of the cell whatever its arithmetic returns. *)
Definition split_at (shuffle : nat -> list N -> list N) (seed : nat) (k : Z)
    (df : list Payload) : result (list Payload * list Payload) :=
  match df with
  | [] => Raise (KeyError "episode_id")
  | _ :: _ =>
      let unique_episode_ids := shuffle seed (unique (map payload_episode_id df)) in
      let train_episode_ids := slice_to k unique_episode_ids in
      let val_episode_ids := slice_from k unique_episode_ids in
      let train_df := List.filter (isin train_episode_ids) df in
      let val_df := List.filter (isin val_episode_ids) df in
      Ok (train_df, val_df)
  end.

(** ** Upload

    The storage service as [upload_dataset_to_gcp] sees it through the
    client: buckets of named objects, an object being the lines written to
    the temporary file (one [google_messages] document a line). A service
    that is not [reachable] fails every call with [TransportError]. *)

Record Storage : Type :=
  { reachable : bool;
    buckets : gmap string (gmap string (list GoogleMessages)) }.

Definition BUCKET_NAME : string := "tensorzero-fine-tuning".

(** [bucket.exists()], and [create_bucket] when it does not. *)
Definition ensure_bucket (st : Storage) : Storage :=
  match buckets st !! BUCKET_NAME with
  | Some _ => st
  | None => {| reachable := reachable st;
               buckets := <[BUCKET_NAME := ∅]> (buckets st) |}
  end.

(** [blob.upload_from_filename(f.name, if_generation_match=0)]: the
    service stores the object only when no object has that name. *)
Definition upload_from_filename (st : Storage) (name : string)
    (lines : list GoogleMessages) : Storage * result unit :=
  match buckets st !! BUCKET_NAME with
  | Some objects =>
      match objects !! name with
      | Some _ => (st, Raise (PreconditionFailed name))
      | None =>
          ({| reachable := reachable st;
              buckets := <[BUCKET_NAME := <[name := lines]> objects]> (buckets st) |},
           Ok tt)
      end
  | None => (st, Raise (NotFound BUCKET_NAME))
  end.

(** [upload_dataset_to_gcp]: the function body ends after the upload, with
    no [return] statement, so what the caller receives on success is
    Python's [None], written [Ok None] here; [Ok (Some uri)] would be a
    returned string. *)
Definition upload_dataset_to_gcp (df : list Payload) (dataset_name : string)
    (gcp_client : Storage) : Storage * result (option string) :=
  let lines := map google_messages df in
  if negb (reachable gcp_client) then (gcp_client, Raise TransportError)
  else
    let st := ensure_bucket gcp_client in
    match upload_from_filename st dataset_name lines with
    | (st', Ok _) => (st', Ok None)
    | (st', Skip w) => (st', Skip w)
    | (st', Raise e) => (st', Raise e)
    end.

(** The URI the later cells build themselves for the uploaded object. *)
Definition remote_uri (dataset_name : string) : string :=
  "gs://" +:+ BUCKET_NAME +:+ "/" +:+ dataset_name.

(** ** [merge_messages] on the object store

    Python lists and dicts are objects reached through references; two
    names may refer to one list. [merge_messages] is modelled a second
    time on a store of such objects, so that what it writes can be told
    from what it reads. *)

Definition loc := positive.

Inductive obj : Type :=
| OParts (items : list part)                 (* a list of parts *)
| ODict (role : string) (parts : option loc) (* a message: "role" and, if present, "parts" *)
| OSeq (items : list loc).                   (* a list of messages *)

Definition get_parts (h : gmap loc obj) (l : loc) : option (list part) :=
  match h !! l with Some (OParts ps) => Some ps | _ => None end.

Definition get_dict (h : gmap loc obj) (l : loc) : option (string * option loc) :=
  match h !! l with Some (ODict r p) => Some (r, p) | _ => None end.

Definition get_seq (h : gmap loc obj) (l : loc) : option (list loc) :=
  match h !! l with Some (OSeq ms) => Some ms | _ => None end.

(** Allocation of a new object. *)
Definition alloc (h : gmap loc obj) (o : obj) : gmap loc obj * loc :=
  let l := fresh (dom h) in (<[l := o]> h, l).

(** [merged.append({"role": role, "parts": list(parts)})]: a new list
    holding the items of [parts], a new dict around it, and the dict's
    reference stored at the end of [merged]. *)
Definition append_copy (h : gmap loc obj) (merged : loc) (role : string)
    (parts : loc) : option (gmap loc obj) :=
  ps ← get_parts h parts;
  let '(h1, copy) := alloc h (OParts ps) in
  let '(h2, d) := alloc h1 (ODict role (Some copy)) in
  mg ← get_seq h2 merged;
  Some (<[merged := OSeq (mg ++ [d])]> h2).

(** [merged[-1]["parts"].extend(parts)] *)
Definition extend_last (h : gmap loc obj) (top : loc) (parts : loc)
    : option (gmap loc obj) :=
  '(_, target) ← get_dict h top;
  target ← target;
  xs ← get_parts h target;
  ys ← get_parts h parts;
  Some (<[target := OParts (xs ++ ys)]> h).

(** The [if]/[else] of the loop: [merged] non-empty with a last message
    of the role [role], or not. *)
Definition merge_into (merged : loc) (h : gmap loc obj) (role : string)
    (parts : loc) : option (gmap loc obj) :=
  mg ← get_seq h merged;
  match last mg with
  | Some top =>
      '(top_role, _) ← get_dict h top;
      if String.eqb top_role role
      then extend_last h top parts
      else append_copy h merged role parts
  | None => append_copy h merged role parts
  end.

(** One iteration of the loop on the message at [msg]. A message without
    ["parts"] yields the default of [msg.get], a list created on the spot. *)
Definition merge_step_store (merged : loc) (h : gmap loc obj) (msg : loc)
    : option (gmap loc obj) :=
  '(role, p) ← get_dict h msg;
  let '(h1, parts) :=
    match p with
    | Some q => (h, q)
    | None => alloc h (OParts [])
    end in
  merge_into merged h1 role parts.

Fixpoint merge_loop_store (merged : loc) (h : gmap loc obj) (msgs : list loc)
    : option (gmap loc obj) :=
  match msgs with
  | [] => Some h
  | msg :: rest =>
      h' ← merge_step_store merged h msg;
      merge_loop_store merged h' rest
  end.

(** [merge_messages(messages)] on the store: the new store and the
    reference to the list returned. The messages to visit are read from
    the list at [messages] once: no iteration writes to that list, as
    is proved below, so the [for] loop over it visits these messages. *)
Definition merge_messages_store (h : gmap loc obj) (messages : loc)
    : option (gmap loc obj * loc) :=
  msgs ← get_seq h messages;
  let '(h0, merged) := alloc h (OSeq []) in
  h' ← merge_loop_store merged h0 msgs;
  Some (h', merged).

(** Reading a list of messages back from the store as turns. *)
Definition read_turn (h : gmap loc obj) (l : loc) : option Turn :=
  '(r, p) ← get_dict h l;
  match p with
  | Some q => ps ← get_parts h q; Some {| role := r; parts := ps |}
  | None => Some {| role := r; parts := [] |}
  end.

Definition read_turns (h : gmap loc obj) (l : loc) : option (list Turn) :=
  ms ← get_seq h l;
  mapM (read_turn h) ms.

(** *** Vocabulary of the store statements *)

(** A turn of the list being built, as it lies in the store [h]: a dict at
    [fst cell] whose "parts" is the list at [snd cell], both created after the
    store [h0] the call started from. *)
Definition cell_ok (h0 h : gmap loc obj) (cell : loc * loc) (t : Turn) : Prop :=
  h !! fst cell = Some (ODict (role t) (Some (snd cell)))
  /\ h !! snd cell = Some (OParts (parts t))
  /\ (fst cell ∉ dom h0) /\ (snd cell ∉ dom h0).

(** The loop invariant: [h] extends [h0]; the list at [merged] is new and
    holds the dicts of [cells], which read as the turns [ts]; no two of
    these turns share their parts list. *)
Record merge_inv (h0 h : gmap loc obj) (merged : loc)
    (cells : list (loc * loc)) (ts : list Turn) : Prop :=
  { inv_frame : h0 ⊆ h;
    inv_merged : h !! merged = Some (OSeq cells.*1);
    inv_merged_new : merged ∉ dom h0;
    inv_cells : Forall2 (cell_ok h0 h) cells ts;
    inv_apart : NoDup cells.*2 }.

(** ** Sample inputs

    Concrete records, frames and stores on which the statements below are
    evaluated. *)

(** The text [{"x": 1}]. *)
Definition x_is_1_text : string :=
  "{" +:+ String Json.dquote "x" +:+ String Json.dquote ": 1}".

Definition x_is_1 : json := JObject [("x", JInt 1)].

Definition good_record : Inference :=
  {| input := {| system := Some "Be concise";
                 messages := [{| msg_role := "user"; content := [Text "Hi"] |}] |};
     output := [Text "Hello"];
     episode_id := 1 |}.

(** The output is a tool call whose argument text is cut short. *)
Definition malformed_call_record : Inference :=
  {| input := {| system := None;
                 messages := [{| msg_role := "user"; content := [Text "Hi"] |}] |};
     output := [ToolCall "lookup" (JStr "{")];
     episode_id := 2 |}.

(** An assistant message holding a tool call with a cut-short argument
    text and, after it, a tool result, which an assistant message does not
    support. *)
Definition call_then_result_record : Inference :=
  {| input := {| system := None;
                 messages :=
                   [{| msg_role := "assistant";
                       content := [ToolCall "lookup" (JStr "{");
                                   ToolResult "lookup" JNull] |}] |};
     output := [Text "Hello"];
     episode_id := 3 |}.

(** A tool result on an assistant message, after a message and a block
    that are rendered. *)
Definition result_on_assistant_record : Inference :=
  {| input := {| system := None;
                 messages :=
                   [{| msg_role := "user"; content := [Text "Hi"] |};
                    {| msg_role := "assistant";
                       content := [Thought "look it up";
                                   ToolResult "lookup" (JStr "42")] |}] |};
     output := [Text "Hello"];
     episode_id := 4 |}.

(** A record that uses every supported variant. *)
Definition tool_use_record : Inference :=
  {| input := {| system := Some "Be concise";
                 messages :=
                   [{| msg_role := "user"; content := [Text "Hi"; RawText "raw"] |};
                    {| msg_role := "assistant";
                       content := [Thought "look it up";
                                   ToolCall "lookup" (JStr x_is_1_text)] |};
                    {| msg_role := "user";
                       content := [ToolResult "lookup" (JStr "42")] |}] |};
     output := [Thought "done"; ToolCall "report" x_is_1; Text "42"];
     episode_id := 5 |}.

Definition row_of (e : N) : Payload :=
  {| google_messages := {| contents := []; systemInstruction := None |};
     payload_episode_id := e |}.

(** Seven rows of five episodes, and two rows of one episode. *)
Definition sample_frame : list Payload :=
  [row_of 1; row_of 2; row_of 1; row_of 3; row_of 4; row_of 5; row_of 2].

Definition one_episode_frame : list Payload := [row_of 1; row_of 1].

(** A shuffle to run the split with: the ids reversed, then rotated by
    the seed. *)
Definition sample_shuffle (seed : nat) (a : list N) : list N :=
  rotate seed (rev a).

Definition empty_storage : Storage := {| reachable := true; buckets := ∅ |}.

(** A store with a list of three messages: two user messages that share
    one parts list, and a model message without "parts". *)
Definition sample_store : gmap loc obj :=
  <[1%positive := OSeq [2; 3; 4]%positive]>
    (<[2%positive := ODict "user" (Some 5%positive)]>
       (<[3%positive := ODict "user" (Some 5%positive)]>
          (<[4%positive := ODict "model" None]>
             (<[5%positive := OParts [PText "a"]]> ∅)))).

(** ** More vocabulary for the converter *)

(** The failure a result stands for, if it is one. *)
Definition failure_of {A} (r : result A) : option (warning + exn) :=
  match r with
  | Ok _ => None
  | Skip w => Some (inl w)
  | Raise e => Some (inr e)
  end.

Definition result_value {A} (r : result A) : option A :=
  match r with Ok a => Some a | _ => None end.

Definition result_warning {A} (r : result A) : option warning :=
  match r with Skip w => Some w | _ => None end.

Definition raises {A} (r : result A) : bool :=
  match r with Raise _ => true | _ => false end.

(** The conversion gets as far as the role lookup of a message whose
    blocks are all rendered and whose role [r] is no key of [role_map]. *)
Definition unknown_role_reached (json_loads : string -> option json)
    (inf : Inference) (r : string) : Prop :=
  exists ms1 m ms2,
    messages (input inf) = ms1 ++ m :: ms2
    /\ forallb (message_ok json_loads) ms1 = true
    /\ forallb (block_ok json_loads (InMessage (msg_role m))) (content m) = true
    /\ role_map (msg_role m) = None
    /\ r = msg_role m.

(** ** Waiting for the tuning job

    The cell polls [response.state] until it is one of three states. What
    the service answers is not in the notebook's hands: an iteration of
    the loop meets a [tick], the outcome of reading [response.state] and
    of calling [response.refresh()]. The loop is run on a script of the
    ticks it will meet; a script that ends before the loop does leaves it
    [Polling]. *)

Record tick : Type :=
  { state_read : option Z;   (* [None]: reading [response.state] raised *)
    refresh_ok : bool }.     (* [false]: [response.refresh()] raised *)

Inductive poll_outcome : Type :=
| Stopped (job_state : Z)    (* [break] *)
| RefreshRaised              (* the exception of [refresh] leaves the cell *)
| Polling.                   (* the loop is still running *)

Section Poll.

(** The values of [JobState.JOB_STATE_SUCCEEDED], [JOB_STATE_FAILED] and
    [JOB_STATE_CANCELLED]. *)
Variables SUCCEEDED FAILED CANCELLED : Z.

(** [job_state in (SUCCEEDED, FAILED, CANCELLED)] *)
Definition terminal (job_state : Z) : bool :=
  Z.eqb job_state SUCCEEDED || Z.eqb job_state FAILED || Z.eqb job_state CANCELLED.

(** The [while True] loop; [slept] counts the calls of [time.sleep(10)]. *)
Fixpoint poll (script : list tick) (slept : nat) : poll_outcome * nat :=
  match script with
  | [] => (Polling, slept)
  | t :: rest =>
      let break :=
        match state_read t with
        | Some job_state => if terminal job_state then Some job_state else None
        | None => None
        end in
      match break with
      | Some job_state => (Stopped job_state, slept)
      | None =>
          if refresh_ok t then poll rest (S slept) else (RefreshRaised, slept)
      end
  end.

(** A tick that lets the loop go on: no terminal state is read, and the
    refresh returns. *)
Definition goes_on (t : tick) : bool :=
  match state_read t with
  | Some job_state => negb (terminal job_state)
  | None => true
  end && refresh_ok t.

End Poll.

(** ** The name of the tuned model *)

(** [s.split(sep)] for a separator of one character: the pieces between
    the separators, [""] included; never an empty list. *)
Fixpoint str_split (sep : ascii) (s : string) : list string :=
  match s with
  | EmptyString => [""]
  | String c rest =>
      if Ascii.eqb c sep then "" :: str_split sep rest
      else
        match str_split sep rest with
        | p :: ps => String c p :: ps
        | [] => [String c ""]
        end
  end.

(** [response.tuned_model_endpoint_name.split("/")[-1]]; [None] would be
    the [IndexError] of an empty list. *)
Definition fine_tuned_model (tuned_model_endpoint_name : string) : option string :=
  last (str_split "/" tuned_model_endpoint_name).

(** The storage after [sample_frame] has been uploaded once. *)
Definition storage_with_train : Storage :=
  (upload_dataset_to_gcp sample_frame "train_0.jsonl" empty_storage).1.

(** [sep.join(pieces)] *)
Fixpoint str_join (sep : ascii) (pieces : list string) : string :=
  match pieces with
  | [] => ""
  | p :: ps =>
      match ps with
      | [] => p
      | _ :: _ => p +:+ String sep (str_join sep ps)
      end
  end.

(** ** More sample inputs *)

Definition sample_assistant_message : Message :=
  {| msg_role := "assistant";
     content := [Thought "look it up"; ToolCall "lookup" (JStr x_is_1_text)] |}.

Definition sample_assistant_turn : Turn :=
  {| role := "model";
     parts := [PText "<think>look it up</think>"; PFunctionCall "lookup" x_is_1] |}.

(** A batch in which the second record is skipped, and the batch before a
    record that raises. *)
Definition sample_batch : list Inference :=
  [good_record; result_on_assistant_record; tool_use_record].

Definition sample_batch_prefix : list Inference :=
  [good_record; result_on_assistant_record].

(** What the split cell makes of [sample_frame] with [sample_shuffle]. *)
Definition sample_train_df : list Payload :=
  [row_of 1; row_of 2; row_of 1; row_of 3; row_of 5; row_of 2].

Definition sample_val_df : list Payload := [row_of 4].

(** The bucket of [storage_with_train]. *)
Definition train_bucket : gmap string (list GoogleMessages) :=
  {["train_0.jsonl" := map google_messages sample_frame]}.

(** * Properties *)

(** ** Merging *)

Lemma turn_eta (t : Turn) : {| role := role t; parts := parts t |} = t.
Proof. by destruct t. Qed.

Lemma merge_step_snoc (acc : list Turn) (x y : Turn) :
  merge_step (acc ++ [x]) y =
  if String.eqb (role x) (role y)
  then acc ++ [{| role := role x; parts := parts x ++ parts y |}]
  else (acc ++ [x]) ++ [y].
Proof.
  unfold merge_step. rewrite last_snoc.
  destruct (String.eqb (role x) (role y)).
  - rewrite length_app. simpl.
    replace (pred (length acc + 1)) with (length acc + 0) by lia.
    by rewrite insert_app_r.
  - by rewrite turn_eta.
Qed.

Lemma fold_merge_step (l acc : list Turn) (x : Turn) :
  fold_left merge_step l (acc ++ [x]) = acc ++ merge_from x l.
Proof.
  revert acc x. induction l as [|y l IH]; intros acc x; simpl; [done|].
  rewrite merge_step_snoc.
  destruct (String.eqb (role x) (role y)).
  - apply IH.
  - rewrite IH. by rewrite <- app_assoc.
Qed.

Lemma merge_messages_cons (x : Turn) (l : list Turn) :
  merge_messages (x :: l) = merge_from x l.
Proof.
  unfold merge_messages. simpl. unfold merge_step at 2. simpl.
  rewrite turn_eta. apply (fold_merge_step l [] x).
Qed.

Lemma merge_from_head (l : list Turn) (x : Turn) :
  exists ps tl, merge_from x l = {| role := role x; parts := ps |} :: tl.
Proof.
  revert x. induction l as [|y l IH]; intros x; simpl.
  - exists (parts x), []. by rewrite turn_eta.
  - destruct (String.eqb (role x) (role y)).
    + destruct (IH {| role := role x; parts := parts x ++ parts y |}) as (ps & tl & E).
      exists ps, tl. exact E.
    + exists (parts x), (merge_from y l). by rewrite turn_eta.
Qed.

Lemma merge_from_alternating (l : list Turn) (x : Turn) :
  alternating (merge_from x l).
Proof.
  revert x. induction l as [|y l IH]; intros x; simpl; [done|].
  destruct (String.eqb (role x) (role y)) eqn:E; [apply IH|].
  destruct (merge_from_head l y) as (ps & tl & Ey).
  specialize (IH y). rewrite Ey in *. simpl. split; [|exact IH].
  intros Heq. rewrite Heq, String.eqb_refl in E. discriminate.
Qed.

Lemma merge_from_fixed (l : list Turn) (x : Turn) :
  alternating (x :: l) -> merge_from x l = x :: l.
Proof.
  revert x. induction l as [|y l IH]; intros x H; simpl; [done|].
  destruct H as [Hne Hl].
  destruct (String.eqb (role x) (role y)) eqn:E.
  - apply String.eqb_eq in E. contradiction.
  - by rewrite IH.
Qed.

Lemma merge_from_parts (l : list Turn) (x : Turn) :
  concat (map parts (merge_from x l)) = parts x ++ concat (map parts l).
Proof.
  revert x. induction l as [|y l IH]; intros x; simpl; [done|].
  destruct (String.eqb (role x) (role y)); simpl; rewrite IH; simpl;
    by rewrite ?app_assoc.
Qed.


(** C7. The merge step is idempotent: merging an already merged list
    changes nothing. Merging is by role alone: two neighbours of the same
    role become one turn whose parts are the first's followed by the
    second's, two neighbours of different roles stay apart, and the parts
    of the whole list keep their order. *)
Theorem merge_messages_idempotent (messages : list Turn) :
  merge_messages (merge_messages messages) = merge_messages messages
  /\ concat (map parts (merge_messages messages)) = concat (map parts messages)
  /\ (forall a b l,
        merge_messages (a :: b :: l) =
        if String.eqb (role a) (role b)
        then merge_messages ({| role := role a; parts := parts a ++ parts b |} :: l)
        else a :: merge_messages (b :: l)).
Proof.
  split; [|split].
  - destruct messages as [|x l]; [done|].
    rewrite merge_messages_cons.
    pose proof (merge_from_alternating l x) as Halt.
    destruct (merge_from x l) as [|z k] eqn:E; [done|].
    rewrite merge_messages_cons. by apply merge_from_fixed.
  - destruct messages as [|x l]; [done|].
    rewrite merge_messages_cons. apply merge_from_parts.
  - intros a b l. rewrite !merge_messages_cons. simpl.
    by destruct (String.eqb (role a) (role b)).
Qed.

(** The spec's example: two consecutive model turns become one. *)
Example merge_two_model_turns :
  merge_messages [ {| role := "model"; parts := [PText "A"] |};
                   {| role := "model"; parts := [PText "B"] |} ]
  = [ {| role := "model"; parts := [PText "A"; PText "B"] |} ].
Proof. reflexivity. Qed.

(** ** Results and loops *)

Lemma collect_app {A} (rs1 rs2 : list (result A)) :
  collect (rs1 ++ rs2) =
  let* l1 := collect rs1 in let* l2 := collect rs2 in Ok (l1 ++ l2).
Proof.
  induction rs1 as [|r rs1 IH]; simpl.
  - by destruct (collect rs2).
  - destruct r; simpl; [|done..]. rewrite IH.
    destruct (collect rs1); simpl; [|done..]. by destruct (collect rs2).
Qed.

Lemma collect_ok {A B} (f : A -> result B) (l : list A) :
  Forall (fun x => exists y, f x = Ok y) l ->
  exists k, collect (map f l) = Ok k /\ Forall2 (fun x y => f x = Ok y) l k.
Proof.
  induction 1 as [|x l [y Hy] _ (k & Hk & HF)]; simpl.
  - exists []. by split.
  - exists (y :: k). rewrite Hy, Hk. simpl. split; [done|]. by constructor.
Qed.

Lemma collect_stops {A B} (f : A -> result B) (pre post : list A) (x : A) :
  Forall (fun x => exists y, f x = Ok y) pre ->
  stops_with (f x) (collect (map f (pre ++ x :: post))).
Proof.
  intros Hpre. destruct (collect_ok f pre Hpre) as (k & Hk & _).
  rewrite map_app, collect_app, Hk. simpl.
  by destruct (f x).
Qed.

Lemma stops_with_bind {A B C} (r : result A) (x : result B) (k : B -> result C) :
  stops_with r x -> stops_with r (let* b := x in k b).
Proof. destruct r; simpl; [done|by intros ->..]. Qed.

Section ConverterProperties.

Variable json_loads : string -> option json.


(** Each loop is [collect] over its list, appended to what was built. *)
Lemma render_blocks_collect role bs acc :
  render_blocks json_loads role bs acc =
  let* ps := collect (map (render_block json_loads role) bs) in Ok (acc ++ ps).
Proof.
  revert acc. induction bs as [|b bs IH]; intros acc; simpl.
  - by rewrite app_nil_r.
  - destruct (render_block json_loads role b); simpl; [|done..]. rewrite IH.
    destruct (collect _); simpl; [|done..]. by rewrite <- app_assoc.
Qed.

Lemma render_output_collect bs acc :
  render_output json_loads bs acc =
  let* ps := collect (map (render_output_block json_loads) bs) in Ok (acc ++ ps).
Proof.
  revert acc. induction bs as [|b bs IH]; intros acc; simpl.
  - by rewrite app_nil_r.
  - destruct (render_output_block json_loads b); simpl; [|done..]. rewrite IH.
    destruct (collect _); simpl; [|done..]. by rewrite <- app_assoc.
Qed.

Lemma render_messages_collect ms acc :
  render_messages json_loads ms acc =
  let* ts :=
    collect (map (fun m => render_chat_message json_loads (msg_role m) (content m)) ms)
  in Ok (acc ++ ts).
Proof.
  revert acc. induction ms as [|m ms IH]; intros acc; simpl.
  - by rewrite app_nil_r.
  - destruct (render_chat_message json_loads _ _); simpl; [|done..]. rewrite IH.
    destruct (collect _); simpl; [|done..]. by rewrite <- app_assoc.
Qed.

(** What a single block yields, by cases on the vocabulary. *)
Lemma render_at_unsupported pl b :
  supported pl b = false -> render_at json_loads pl b = Skip (unsupported_warning pl b).
Proof.
  destruct pl as [role|], b; simpl; try done; by intros ->.
Qed.

Lemma render_at_malformed pl name s :
  supported pl (ToolCall name (JStr s)) = true ->
  json_loads s = None ->
  render_at json_loads pl (ToolCall name (JStr s)) = Raise (JSONDecodeError s).
Proof.
  destruct pl as [role|]; simpl; [intros ->|intros _]; by intros ->.
Qed.

Lemma render_at_ok pl b :
  block_ok json_loads pl b = true -> exists p, render_at json_loads pl b = Ok p.
Proof.
  unfold block_ok. rewrite andb_true_iff, negb_true_iff. intros [Hs Hm].
  destruct pl as [role|], b as [t|v|t|name args|name r|n];
    simpl in *; try done; rewrite ?Hs; simpl; eauto;
    destruct args as [| | | |s| |]; simpl in *; eauto;
    apply negb_false_iff, bool_decide_eq_true in Hm as [v Hv];
    rewrite Hv; simpl; eauto.
Qed.

Lemma blocks_ok pl bs :
  forallb (block_ok json_loads pl) bs = true ->
  Forall (fun b => exists p, render_at json_loads pl b = Ok p) bs.
Proof.
  rewrite forallb_forall, List.Forall_forall.
  intros H b Hb. by apply render_at_ok, H.
Qed.

Lemma render_chat_message_ok m :
  message_ok json_loads m = true ->
  exists t, render_chat_message json_loads (msg_role m) (content m) = Ok t.
Proof.
  unfold message_ok. rewrite andb_true_iff. intros [Hb Hr].
  apply bool_decide_eq_true in Hr as [r Hr].
  destruct (collect_ok (render_block json_loads (msg_role m)) _
              (blocks_ok (InMessage (msg_role m)) _ Hb)) as (ps & Hps & _).
  unfold render_chat_message. rewrite render_blocks_collect, Hps. simpl.
  rewrite Hr. eauto.
Qed.

Lemma messages_ok ms :
  forallb (message_ok json_loads) ms = true ->
  Forall (fun m => exists t,
            render_chat_message json_loads (msg_role m) (content m) = Ok t) ms.
Proof.
  rewrite forallb_forall, List.Forall_forall.
  intros H m Hm. by apply render_chat_message_ok, H.
Qed.

(** A failure at the block that is reached is the failure of the whole
    conversion. *)
Lemma reached_stops inf pl b :
  reached json_loads inf pl b ->
  stops_with (render_at json_loads pl b) (inference_to_google json_loads inf).
Proof.
  intros [ms1 m ms2 bs1 b' bs2 Hms Hbs Hok1 Hok2 | bs1 b' bs2 Hok Hout Hok2];
    unfold inference_to_google, rendered_msgs.
  - apply stops_with_bind, stops_with_bind.
    rewrite Hms, render_messages_collect. apply stops_with_bind.
    assert (stops_with (render_at json_loads (InMessage (msg_role m)) b')
              (render_chat_message json_loads (msg_role m) (content m))) as Hm.
    { unfold render_chat_message.
      rewrite Hbs, render_blocks_collect.
      apply stops_with_bind, stops_with_bind.
      apply (collect_stops (render_block json_loads (msg_role m))), (blocks_ok _ _ Hok2). }
    pose proof (collect_stops
      (fun m => render_chat_message json_loads (msg_role m) (content m)) ms1 ms2 m
      (messages_ok _ Hok1)) as Hc.
    simpl in *. destruct (render_block json_loads (msg_role m) b'); [done|..];
      rewrite Hm in Hc; exact Hc.
  - destruct (collect_ok _ _ (messages_ok _ Hok)) as (ts & Hts & _).
    rewrite render_messages_collect, Hts. simpl.
    apply stops_with_bind, stops_with_bind.
    rewrite Hout, render_output_collect. apply stops_with_bind.
    apply (collect_stops (render_output_block json_loads)), (blocks_ok _ _ Hok2).
Qed.

Lemma convert_loop_skip inf w rest payloads warned :
  inference_to_google json_loads inf = Skip w ->
  convert_loop json_loads (inf :: rest) payloads warned =
  convert_loop json_loads rest payloads (warned ++ [w]).
Proof. intros H. simpl. by rewrite H. Qed.

Lemma convert_loop_raise inf e rest payloads warned :
  inference_to_google json_loads inf = Raise e ->
  convert_loop json_loads (inf :: rest) payloads warned =
  {| google_payloads := payloads; warnings := warned; raised := Some e |}.
Proof. intros H. simpl. by rewrite H. Qed.

(** C1, as the code has it. When the conversion of a record reaches a
    tool call, in an assistant message or in the output, whose arguments
    are a text that [json.loads] rejects, the exception is not caught:
    [inference_to_google] raises it, and the loop over the batch ends
    there with that exception, whatever records follow; the payloads
    and warnings are those of the records before. *)
Theorem malformed_arguments_raise inf pl name s :
  reached json_loads inf pl (ToolCall name (JStr s)) ->
  supported pl (ToolCall name (JStr s)) = true ->
  json_loads s = None ->
  inference_to_google json_loads inf = Raise (JSONDecodeError s)
  /\ forall rest payloads warned,
       convert_loop json_loads (inf :: rest) payloads warned =
       {| google_payloads := payloads; warnings := warned;
          raised := Some (JSONDecodeError s) |}.
Proof.
  intros Hr Hs Hl.
  pose proof (reached_stops _ _ _ Hr) as H.
  rewrite (render_at_malformed _ _ _ Hs Hl) in H. simpl in H.
  split; [exact H|]. intros. by apply convert_loop_raise.
Qed.

(** C4, as the code has it. When the conversion of a record reaches a
    block that its place does not support (a tool result outside a user
    message, a tool call outside an assistant message, a raw text or a
    tool result in the output, an unrecognised block), every message and
    block before it having been rendered, [inference_to_google] gives up
    the record with the warning for that block, and the loop over the
    batch goes on with the next record, the payloads unchanged and the
    warning recorded. *)
Theorem unsupported_block_skips_record inf pl b :
  reached json_loads inf pl b ->
  supported pl b = false ->
  inference_to_google json_loads inf = Skip (unsupported_warning pl b)
  /\ forall rest payloads warned,
       convert_loop json_loads (inf :: rest) payloads warned =
       convert_loop json_loads rest payloads (warned ++ [unsupported_warning pl b]).
Proof.
  intros Hr Hs.
  pose proof (reached_stops _ _ _ Hr) as H.
  rewrite (render_at_unsupported _ _ Hs) in H. simpl in H.
  split; [exact H|]. intros. by apply convert_loop_skip.
Qed.


(** C9. Per-block rendering in a message of any role: a text block and
    a raw text block become a text part with the same text, a thought
    becomes a text part with the text between the think tags; the
    output loop renders text and thought blocks the same way. The
    spec's record (system prompt "Be concise", one user message "Hi",
    output "Hello") converts to the user turn, the model turn and the
    system instruction it names. *)
Theorem block_rendering_table :
  (forall role t, render_block json_loads role (Text t) = Ok (PText t))
  /\ (forall role v, render_block json_loads role (RawText v) = Ok (PText v))
  /\ (forall role t,
        render_block json_loads role (Thought t) =
        Ok (PText ("<think>" +:+ t +:+ "</think>")))
  /\ (forall t, render_output_block json_loads (Text t) = Ok (PText t))
  /\ (forall t,
        render_output_block json_loads (Thought t) =
        Ok (PText ("<think>" +:+ t +:+ "</think>")))
  /\ (forall e,
        inference_to_google json_loads
          {| input := {| system := Some "Be concise";
                         messages := [{| msg_role := "user"; content := [Text "Hi"] |}] |};
             output := [Text "Hello"];
             episode_id := e |}
        = Ok {| google_messages :=
                  {| contents := [{| role := "user"; parts := [PText "Hi"] |};
                                  {| role := "model"; parts := [PText "Hello"] |}];
                     systemInstruction :=
                       Some {| role := "system"; parts := [PText "Be concise"] |} |};
                payload_episode_id := e |}).
Proof. repeat split. Qed.

End ConverterProperties.

(** ** The converter on the sample records *)

Example x_is_1_text_chars :
  Json.chars x_is_1_text =
  ["{"; Json.dquote; "x"; Json.dquote; ":"; " "; "1"; "}"]%char.
Proof. reflexivity. Qed.

Lemma normalize_arguments_decoded json_loads s fields :
  json_loads s = Some (JObject fields) ->
  normalize_arguments json_loads (JStr s) =
  normalize_arguments json_loads (JObject fields).
Proof. intros H. simpl. by rewrite H. Qed.

(** C8. The tool call whose arguments are the text [{"x": 1}] and the tool
    call whose arguments are the mapping of "x" to 1 give the same
    functionCall part, in an assistant message and in the output: the text
    is decoded to that mapping. *)
Theorem tool_call_arguments_form_independent (name : string) :
  Json.loads x_is_1_text = Some x_is_1
  /\ render_block Json.loads "assistant" (ToolCall name (JStr x_is_1_text)) =
     render_block Json.loads "assistant" (ToolCall name x_is_1)
  /\ render_output_block Json.loads (ToolCall name (JStr x_is_1_text)) =
     render_output_block Json.loads (ToolCall name x_is_1)
  /\ render_block Json.loads "assistant" (ToolCall name (JStr x_is_1_text)) =
     Ok (PFunctionCall name (JObject [("x", JInt 1)])).
Proof.
  split_and!; vm_compute; reflexivity.
Qed.

Lemma malformed_arguments_raise_witness :
  reached Json.loads malformed_call_record InOutput (ToolCall "lookup" (JStr "{"))
  /\ Json.loads "{" = None
  /\ inference_to_google Json.loads malformed_call_record = Raise (JSONDecodeError "{")
  /\ forall rest payloads warned,
       convert_loop Json.loads (malformed_call_record :: rest) payloads warned =
       {| google_payloads := payloads; warnings := warned;
          raised := Some (JSONDecodeError "{") |}.
Proof.
  assert (reached Json.loads malformed_call_record InOutput
            (ToolCall "lookup" (JStr "{"))) as Hr.
  { apply (reached_in_output Json.loads malformed_call_record [] _ []);
      reflexivity. }
  assert (Json.loads "{" = None) as Hl by reflexivity.
  split; [exact Hr|]. split; [exact Hl|].
  exact (malformed_arguments_raise Json.loads malformed_call_record InOutput
           "lookup" "{" Hr eq_refl Hl).
Defined.

(** C1 as stated fails: the batch of [malformed_call_record] and
    [good_record] ends with the decoder's exception and no payload; it
    does not go on to [good_record] with a warning recorded. *)
Lemma malformed_arguments_counterexample :
  occurs malformed_call_record InOutput (ToolCall "lookup" (JStr "{"))
  /\ Json.loads "{" = None
  /\ inference_to_google Json.loads malformed_call_record = Raise (JSONDecodeError "{")
  /\ convert_all Json.loads [malformed_call_record; good_record] =
     {| google_payloads := []; warnings := [];
        raised := Some (JSONDecodeError "{") |}
  /\ forall w,
       convert_all Json.loads [malformed_call_record; good_record] <>
       convert_loop Json.loads [good_record] [] [w].
Proof.
  split_and!; try reflexivity.
  - apply occurs_in_output. simpl. left.
  - intros w H. vm_compute in H. discriminate H.
Qed.

Lemma unsupported_block_skips_record_witness :
  reached Json.loads result_on_assistant_record (InMessage "assistant")
    (ToolResult "lookup" (JStr "42"))
  /\ inference_to_google Json.loads result_on_assistant_record =
     Skip (UnsupportedBlock "ToolResult" "assistant")
  /\ forall rest payloads warned,
       convert_loop Json.loads (result_on_assistant_record :: rest) payloads warned =
       convert_loop Json.loads rest payloads
         (warned ++ [UnsupportedBlock "ToolResult" "assistant"]).
Proof.
  assert (reached Json.loads result_on_assistant_record (InMessage "assistant")
            (ToolResult "lookup" (JStr "42"))) as Hr.
  { apply (reached_in_message Json.loads result_on_assistant_record
             [{| msg_role := "user"; content := [Text "Hi"] |}]
             {| msg_role := "assistant";
                content := [Thought "look it up"; ToolResult "lookup" (JStr "42")] |}
             [] [Thought "look it up"] _ []); reflexivity. }
  split; [exact Hr|].
  exact (unsupported_block_skips_record Json.loads result_on_assistant_record
           (InMessage "assistant") (ToolResult "lookup" (JStr "42")) Hr eq_refl).
Defined.

(** C4 as stated fails: [call_then_result_record] holds a tool result on
    an assistant message, yet its conversion does not end in "no result":
    the tool call before it raises the decoder's exception, which also
    ends the batch. *)
Lemma unsupported_block_counterexample :
  occurs call_then_result_record (InMessage "assistant") (ToolResult "lookup" JNull)
  /\ supported (InMessage "assistant") (ToolResult "lookup" JNull) = false
  /\ inference_to_google Json.loads call_then_result_record =
     Raise (JSONDecodeError "{")
  /\ (forall w, inference_to_google Json.loads call_then_result_record <> Skip w)
  /\ raised (convert_all Json.loads [call_then_result_record; good_record]) =
     Some (JSONDecodeError "{").
Proof.
  split_and!; try reflexivity.
  - apply (occurs_in_message call_then_result_record
             {| msg_role := "assistant";
                content := [ToolCall "lookup" (JStr "{"); ToolResult "lookup" JNull] |});
      simpl; [left | right; left].
  - intros w H. vm_compute in H. discriminate H.
Qed.


(** The record of [valid_record_converts_witness], converted: the model
    turn of the last assistant message is followed by the user turn, and
    the output turn stands last. *)
Example tool_use_record_converted :
  inference_to_google Json.loads tool_use_record =
  Ok {| google_messages :=
          {| contents :=
               [{| role := "user"; parts := [PText "Hi"; PText "raw"] |};
                {| role := "model";
                   parts := [PText "<think>look it up</think>";
                             PFunctionCall "lookup" x_is_1] |};
                {| role := "user"; parts := [PFunctionResponse "lookup" (JStr "42")] |};
                {| role := "model";
                   parts := [PText "<think>done</think>";
                             PFunctionCall "report" x_is_1; PText "42"] |}];
             systemInstruction :=
               Some {| role := "system"; parts := [PText "Be concise"] |} |};
        payload_episode_id := 5 |}.
Proof. reflexivity. Qed.

(** ** The split *)

Lemma unique_elem (l : list N) (x : N) : x ∈ unique l <-> x ∈ l.
Proof.
  induction l as [|y l IH]; simpl; [done|].
  rewrite !elem_of_cons, list_elem_of_filter, IH.
  destruct (decide (x = y)) as [->|Hne]; [split; intros _; by left|].
  split; [intros [?|[_ ?]]; [done|by right] | intros [?|?]; [done|by right]].
Qed.

Lemma unique_NoDup (l : list N) : NoDup (unique l).
Proof.
  induction l as [|y l IH]; simpl; constructor.
  - rewrite list_elem_of_filter. by intros [Hne _].
  - by apply NoDup_filter.
Qed.

Lemma slice_to_from {A} (k : Z) (a : list A) : slice_to k a ++ slice_from k a = a.
Proof. apply take_drop. Qed.

Lemma isin_true (values : list N) (row : Payload) :
  isin values row = true <-> payload_episode_id row ∈ values.
Proof. unfold isin. apply bool_decide_eq_true. Qed.

Lemma filter_partition {A} (p q : A -> bool) (l : list A) :
  (forall x, x ∈ l -> q x = negb (p x)) ->
  List.filter p l ++ List.filter q l ≡ₚ l.
Proof.
  induction l as [|x l IH]; intros H; simpl; [done|].
  rewrite (H x) by left.
  assert (List.filter p l ++ List.filter q l ≡ₚ l) as IH'
    by (apply IH; intros y Hy; apply H; by right).
  destruct (p x); simpl.
  - by rewrite IH'.
  - rewrite <- Permutation_middle. by rewrite IH'.
Qed.

Lemma elem_of_bool_filter {A} (p : A -> bool) (l : list A) (x : A) :
  x ∈ List.filter p l <-> x ∈ l /\ p x = true.
Proof. rewrite !list_elem_of_In. apply filter_In. Qed.

Lemma bool_filter_all {A} (p : A -> bool) (l : list A) :
  (forall x, x ∈ l -> p x = true) -> List.filter p l = l.
Proof.
  induction l as [|x l IH]; intros H; simpl; [done|].
  rewrite (H x) by left. f_equal. apply IH. intros y Hy. apply H. by right.
Qed.

Lemma bool_filter_none {A} (p : A -> bool) (l : list A) :
  (forall x, x ∈ l -> p x = false) -> List.filter p l = [].
Proof.
  induction l as [|x l IH]; intros H; simpl; [done|].
  rewrite (H x) by left. apply IH. intros y Hy. apply H. by right.
Qed.

(** Python's [int] of a number strictly between 0 and 1 is 0. *)
Lemma split_index_one (val_fraction : Q) :
  (0 < val_fraction)%Q -> (val_fraction < 1)%Q -> split_index 1 val_fraction = 0%Z.
Proof.
  destruct val_fraction as [n d]. unfold Qlt, split_index, int_of_Q. simpl.
  intros H0 H1. apply Z.quot_small. lia.
Qed.

Section SplitProperties.

Variable shuffle : nat -> list N -> list N.
Hypothesis shuffle_perm : forall seed l, shuffle seed l ≡ₚ l.

(** The two slices of the shuffled ids share no id and cover the ids of
    the frame. *)
Lemma episode_ids_partition seed (k : Z) (df : list Payload) (row : Payload) :
  let ids := shuffle seed (unique (map payload_episode_id df)) in
  row ∈ df ->
  isin (slice_from k ids) row = negb (isin (slice_to k ids) row).
Proof.
  intros ids Hrow.
  assert (NoDup (slice_to k ids ++ slice_from k ids)) as Hnd.
  { rewrite slice_to_from. unfold ids. rewrite shuffle_perm. apply unique_NoDup. }
  assert (payload_episode_id row ∈ slice_to k ids ++ slice_from k ids) as Hin.
  { rewrite slice_to_from. unfold ids. rewrite shuffle_perm, unique_elem.
    rewrite list_elem_of_In. apply in_map. by rewrite <- list_elem_of_In. }
  apply NoDup_app in Hnd as (_ & Hdisj & _).
  apply elem_of_app in Hin.
  unfold isin.
  destruct (decide (payload_episode_id row ∈ slice_to k ids)) as [Ht|Ht].
  - rewrite (bool_decide_eq_true_2 _ Ht). simpl.
    apply bool_decide_eq_false_2. by apply Hdisj.
  - rewrite (bool_decide_eq_false_2 _ Ht). simpl.
    apply bool_decide_eq_true_2. by destruct Hin.
Qed.

(** C5. For every frame, seed and validation fraction, the split cell
    raises only on a frame with no row, and otherwise returns two frames
    that are together the rows of the frame, each row in exactly one of
    them, such that no training row has the episode id of a validation
    row: the rows of one episode are all on one side. *)
Theorem split_keeps_episodes_together seed val_fraction (df : list Payload) :
  match split shuffle seed val_fraction df with
  | Ok (train_df, val_df) =>
      train_df ++ val_df ≡ₚ df
      /\ (forall row, row ∈ df ->
             (row ∈ train_df /\ row ∉ val_df) \/ (row ∈ val_df /\ row ∉ train_df))
      /\ (forall a b, a ∈ train_df -> b ∈ val_df ->
             payload_episode_id a <> payload_episode_id b)
  | Skip _ => False
  | Raise _ => df = []
  end.
Proof.
  destruct df as [|r0 df0]; [done|].
  set (df := r0 :: df0).
  set (ids := shuffle seed (unique (map payload_episode_id df))).
  set (k := split_index (length ids) val_fraction).
  change (split shuffle seed val_fraction df)
    with (Ok (List.filter (isin (slice_to k ids)) df,
              List.filter (isin (slice_from k ids)) df)).
  pose proof (episode_ids_partition seed k df) as Hpart. fold ids in Hpart.
  cbv beta iota. split_and!.
  - apply filter_partition. intros x Hx. by apply Hpart.
  - intros row Hrow. rewrite !elem_of_bool_filter, (Hpart row Hrow).
    destruct (isin (slice_to k ids) row); simpl; [left|right];
      (split; [done | by intros [_ ?]]).
  - intros a b Ha Hb Heq.
    apply elem_of_bool_filter in Ha as [Ha Hat].
    apply elem_of_bool_filter in Hb as [Hb Hbv].
    rewrite (Hpart b Hb) in Hbv. apply negb_true_iff in Hbv.
    unfold isin in *. rewrite Heq in Hat. congruence.
Qed.

(** A frame whose rows all have the episode id [i]. *)
Lemma split_one_id seed val_fraction (df : list Payload) (i : N) :
  (0 < val_fraction)%Q -> (val_fraction < 1)%Q ->
  unique (map payload_episode_id df) = [i] ->
  split shuffle seed val_fraction df = Ok ([], df).
Proof.
  intros H0 H1 Hu. destruct df as [|r0 df0]; [done|].
  set (df := r0 :: df0) in *.
  assert (forall row, row ∈ df -> payload_episode_id row = i) as Hall.
  { intros row Hrow. apply list_elem_of_singleton. rewrite <- Hu, unique_elem.
    rewrite list_elem_of_In. apply in_map. by rewrite <- list_elem_of_In. }
  unfold split. fold df. rewrite Hu.
  assert (shuffle seed [i] = [i]) as ->
    by (apply Permutation_singleton_r, shuffle_perm).
  simpl length. rewrite (split_index_one _ H0 H1).
  change (slice_to 0 [i]) with (@nil N).
  change (slice_from 0 [i]) with [i].
  f_equal. f_equal.
  - apply bool_filter_none. intros row _.
    apply bool_decide_eq_false_2, not_elem_of_nil.
  - apply bool_filter_all. intros row Hrow.
    apply isin_true, list_elem_of_singleton, Hall, Hrow.
Qed.

(** [split] is [split_at] at the index [split_index] computes. *)
Lemma split_is_split_at seed val_fraction (df : list Payload) :
  split shuffle seed val_fraction df =
  split_at shuffle seed
    (split_index (length (shuffle seed (unique (map payload_episode_id df))))
                 val_fraction) df.
Proof. by destruct df. Qed.

(** A frame whose rows all have the episode id [i], split at any index:
    one of the two frames is empty and the other is the frame. *)
Lemma split_at_one_id seed (k : Z) (df : list Payload) (i : N) :
  df <> [] ->
  unique (map payload_episode_id df) = [i] ->
  split_at shuffle seed k df = Ok ([], df)
  \/ split_at shuffle seed k df = Ok (df, []).
Proof.
  intros Hne Hu. destruct df as [|r0 df0]; [done|].
  set (df := r0 :: df0) in *.
  assert (forall row, row ∈ df -> payload_episode_id row = i) as Hall.
  { intros row Hrow. apply list_elem_of_singleton. rewrite <- Hu, unique_elem.
    rewrite list_elem_of_In. apply in_map. by rewrite <- list_elem_of_In. }
  assert (List.filter (isin []) df = []) as Hnone.
  { apply bool_filter_none. intros row _.
    apply bool_decide_eq_false_2, not_elem_of_nil. }
  assert (List.filter (isin [i]) df = df) as Hevery.
  { apply bool_filter_all. intros row Hrow.
    apply isin_true, list_elem_of_singleton, Hall, Hrow. }
  unfold split_at. fold df. rewrite Hu.
  assert (shuffle seed [i] = [i]) as ->
    by (apply Permutation_singleton_r, shuffle_perm).
  unfold slice_to, slice_from. simpl length.
  destruct (slice_bound k 1) as [|b].
  - left. simpl take. simpl drop. by rewrite Hnone, Hevery.
  - right. replace (take (S b) [i]) with [i] by (by destruct b).
    replace (drop (S b) [i]) with (@nil N) by (by destruct b).
    by rewrite Hnone, Hevery.
Qed.

(** C2, as the code has it. With fewer than two distinct episode ids: a
    frame with no row makes the cell raise [KeyError] at the lookup of
    the [episode_id] column; a frame whose rows all have one episode id
    is split without any error, whatever the validation fraction and
    whatever split index the cell computes from it, into two frames of
    which one is empty and the other holds every row. *)
Theorem split_with_one_episode seed (k : Z) (val_fraction : Q) (df : list Payload) :
  length (unique (map payload_episode_id df)) < 2 ->
  (df = []
   /\ split_at shuffle seed k df = Raise (KeyError "episode_id")
   /\ split shuffle seed val_fraction df = Raise (KeyError "episode_id"))
  \/ (df <> []
      /\ (split_at shuffle seed k df = Ok ([], df)
          \/ split_at shuffle seed k df = Ok (df, []))
      /\ (split shuffle seed val_fraction df = Ok ([], df)
          \/ split shuffle seed val_fraction df = Ok (df, []))).
Proof.
  intros Hlen. destruct df as [|r0 df0]; [by left|]. right.
  assert (unique (map payload_episode_id (r0 :: df0)) = [payload_episode_id r0])
    as Hu.
  { simpl in *. destruct (filter _ _) as [|? ?]; [done|]. simpl in Hlen. lia. }
  split_and!; [done| |rewrite split_is_split_at];
    by apply (split_at_one_id _ _ _ (payload_episode_id r0)).
Qed.

End SplitProperties.

Lemma sample_shuffle_perm (seed : nat) (l : list N) : sample_shuffle seed l ≡ₚ l.
Proof.
  unfold sample_shuffle, rotate.
  rewrite Permutation_app_comm, take_drop. symmetry. apply Permutation_rev.
Qed.

Example sample_frame_split :
  split_cell sample_shuffle sample_frame =
  Ok ([row_of 1; row_of 2; row_of 1; row_of 3; row_of 5; row_of 2], [row_of 4]).
Proof. reflexivity. Qed.

Lemma split_keeps_episodes_together_witness :
  (forall seed l, sample_shuffle seed l ≡ₚ l)
  /\ match split sample_shuffle 42 VAL_FRACTION sample_frame with
     | Ok (train_df, val_df) =>
         train_df ++ val_df ≡ₚ sample_frame
         /\ (forall row, row ∈ sample_frame ->
                (row ∈ train_df /\ row ∉ val_df) \/ (row ∈ val_df /\ row ∉ train_df))
         /\ (forall a b, a ∈ train_df -> b ∈ val_df ->
                payload_episode_id a <> payload_episode_id b)
     | Skip _ => False
     | Raise _ => sample_frame = []
     end.
Proof.
  split; [exact sample_shuffle_perm|].
  exact (split_keeps_episodes_together sample_shuffle sample_shuffle_perm
           42 VAL_FRACTION sample_frame).
Defined.

Lemma split_with_one_episode_witness :
  length (unique (map payload_episode_id one_episode_frame)) < 2
  /\ ((one_episode_frame = []
       /\ split_at sample_shuffle 42 1 one_episode_frame = Raise (KeyError "episode_id")
       /\ split sample_shuffle 42 VAL_FRACTION one_episode_frame =
          Raise (KeyError "episode_id"))
      \/ (one_episode_frame <> []
          /\ (split_at sample_shuffle 42 1 one_episode_frame = Ok ([], one_episode_frame)
              \/ split_at sample_shuffle 42 1 one_episode_frame =
                 Ok (one_episode_frame, []))
          /\ (split sample_shuffle 42 VAL_FRACTION one_episode_frame =
                Ok ([], one_episode_frame)
              \/ split sample_shuffle 42 VAL_FRACTION one_episode_frame =
                 Ok (one_episode_frame, [])))).
Proof.
  assert (length (unique (map payload_episode_id one_episode_frame)) < 2) as H
    by (vm_compute; lia).
  split; [exact H|].
  exact (split_with_one_episode sample_shuffle sample_shuffle_perm
           42 1 VAL_FRACTION one_episode_frame H).
Defined.

(** The two outcomes on [one_episode_frame]: at the index 0 every row is
    in the validation frame, at the index 1 every row is in the training
    frame. *)
Example one_episode_frame_split_at :
  split_at sample_shuffle 42 0 one_episode_frame = Ok ([], one_episode_frame)
  /\ split_at sample_shuffle 42 1 one_episode_frame = Ok (one_episode_frame, []).
Proof. by split. Qed.

(** C2 as stated fails: the two rows of [one_episode_frame] have one
    episode id, the fraction is 0.2, and the split raises nothing, for any
    shuffle and seed: it returns an empty training frame. *)
Lemma split_one_episode_counterexample :
  length (unique (map payload_episode_id one_episode_frame)) < 2
  /\ (0 < VAL_FRACTION)%Q /\ (VAL_FRACTION < 1)%Q
  /\ forall shuffle seed,
       (forall seed' l, shuffle seed' l ≡ₚ l) ->
       split shuffle seed VAL_FRACTION one_episode_frame = Ok ([], one_episode_frame)
       /\ forall e, split shuffle seed VAL_FRACTION one_episode_frame <> Raise e.
Proof.
  split_and!; [vm_compute; lia | reflexivity | reflexivity |].
  intros shuffle seed Hperm.
  assert (split shuffle seed VAL_FRACTION one_episode_frame = Ok ([], one_episode_frame))
    as H by (by apply (split_one_id shuffle Hperm _ _ _ 1%N)).
  split; [exact H|]. intros e. by rewrite H.
Qed.

(** ** The upload *)

Lemma upload_unreachable df dataset_name gcp_client :
  reachable gcp_client = false ->
  upload_dataset_to_gcp df dataset_name gcp_client = (gcp_client, Raise TransportError).
Proof. intros H. unfold upload_dataset_to_gcp. by rewrite H. Qed.

Lemma upload_existing_object df dataset_name gcp_client objects :
  reachable gcp_client = true ->
  buckets gcp_client !! BUCKET_NAME = Some objects ->
  is_Some (objects !! dataset_name) ->
  upload_dataset_to_gcp df dataset_name gcp_client =
  (gcp_client, Raise (PreconditionFailed dataset_name)).
Proof.
  intros Hr Hb [o Ho]. unfold upload_dataset_to_gcp, ensure_bucket, upload_from_filename.
  by rewrite Hr, Hb, Hb, Ho.
Qed.

(** C3, where the code departs from it. Whatever the frame, the name and
    the storage, a call of [upload_dataset_to_gcp] that ends without an
    exception hands back Python's [None], never a URI; so does the upload
    of [sample_frame] under a new name to an empty storage. *)
Theorem upload_returns_none df dataset_name gcp_client :
  match (upload_dataset_to_gcp df dataset_name gcp_client).2 with
  | Ok r => r = None
  | Skip _ => False
  | Raise _ => True
  end
  /\ (upload_dataset_to_gcp sample_frame "train_0.jsonl" empty_storage).2 = Ok None.
Proof.
  split; [|reflexivity].
  unfold upload_dataset_to_gcp, upload_from_filename.
  destruct (reachable gcp_client); simpl; [|done].
  destruct (buckets (ensure_bucket gcp_client) !! BUCKET_NAME) as [objects|]; [|done].
  by destruct (objects !! dataset_name).
Qed.

(** ** [merge_messages] on the store *)

(** Two references at which the store holds objects of different kinds
    are different references. *)
Ltac apart H1 H2 :=
  let E := fresh "E" in
  intros E; simpl in E; rewrite E in H1; rewrite H1 in H2; discriminate H2.

Lemma merge_inv_weaken h0 h h' merged cells ts :
  merge_inv h0 h merged cells ts -> h ⊆ h' -> merge_inv h0 h' merged cells ts.
Proof.
  intros [Hf Hm Hn Hc Hd] Hsub. split; try done.
  - by transitivity h.
  - by apply (lookup_weaken h).
  - eapply Forall2_impl; [exact Hc|].
    intros cell t (H1 & H2 & H3 & H4).
    split_and!; try done; by apply (lookup_weaken h).
Qed.

Lemma alloc_subseteq (h : gmap loc obj) (o : obj) : h ⊆ <[fresh (dom h) := o]> h.
Proof. apply insert_subseteq, not_elem_of_dom, is_fresh. Qed.

Lemma fresh_not_in_base (h0 h : gmap loc obj) : h0 ⊆ h -> fresh (dom h) ∉ dom h0.
Proof.
  intros Hsub Hin. apply (is_fresh (dom h)).
  by apply (subseteq_dom h0 h Hsub).
Qed.

Lemma merge_inv_cell_dom h0 h merged cells ts c :
  merge_inv h0 h merged cells ts -> c ∈ cells.*2 -> c ∈ dom h.
Proof.
  intros [_ _ _ Hc _] Hin.
  apply list_elem_of_fmap in Hin as ([d c'] & -> & Hin).
  apply list_elem_of_lookup in Hin as [i Hi].
  destruct (Forall2_lookup_l _ _ _ _ _ Hc Hi) as (t & _ & _ & H2 & _).
  apply elem_of_dom. by eexists.
Qed.

(** Appending a copy keeps the invariant and adds the turn. *)
Lemma append_copy_inv h0 h merged cells ts role p ps :
  merge_inv h0 h merged cells ts ->
  get_parts h p = Some ps ->
  exists h' cells',
    append_copy h merged role p = Some h'
    /\ merge_inv h0 h' merged cells' (ts ++ [{| role := role; parts := ps |}]).
Proof.
  intros Hinv Hp. unfold append_copy. rewrite Hp. simpl.
  set (l1 := fresh (dom h)). set (h1 := <[l1 := OParts ps]> h).
  set (l2 := fresh (dom h1)). set (h2 := <[l2 := ODict role (Some l1)]> h1).
  assert (h ⊆ h1) as Hs1 by apply alloc_subseteq.
  assert (h1 ⊆ h2) as Hs2 by apply alloc_subseteq.
  assert (merge_inv h0 h2 merged cells ts) as Hinv2
    by (eapply merge_inv_weaken; [eapply merge_inv_weaken|]; eauto).
  destruct Hinv2 as [Hf Hm Hn Hc Hd].
  unfold get_seq. rewrite Hm. simpl.
  assert (h1 !! l1 = Some (OParts ps)) as Hl1 by apply lookup_insert_eq.
  assert (h2 !! l2 = Some (ODict role (Some l1))) as Hl2 by apply lookup_insert_eq.
  assert (h2 !! l1 = Some (OParts ps)) as Hl1' by (by apply (lookup_weaken h1)).
  assert (l1 ∉ dom h0) as Hn1 by (apply fresh_not_in_base, (inv_frame _ _ _ _ _ Hinv)).
  assert (l2 ∉ dom h0) as Hn2.
  { apply fresh_not_in_base. transitivity h; [apply Hinv|done]. }
  eexists _, (cells ++ [(l2, l1)]). split; [reflexivity|].
  split.
  - apply insert_subseteq_r; [by apply not_elem_of_dom|done].
  - rewrite lookup_insert_eq. by rewrite fmap_app.
  - done.
  - apply Forall2_app.
    + eapply Forall2_impl; [exact Hc|].
      intros cell t (H1 & H2 & H3 & H4).
      split_and!; try done; (rewrite lookup_insert_ne; [done|]).
      * apart Hm H1.
      * apart Hm H2.
    + constructor; [|constructor]. simpl.
      split_and!; try done; (rewrite lookup_insert_ne; [done|]).
      * apart Hm Hl2.
      * apart Hm Hl1'.
  - rewrite fmap_app. simpl. apply NoDup_app. split_and!; [done| |apply NoDup_singleton].
    intros c Hc' Hc''. apply list_elem_of_singleton in Hc''. subst c.
    apply (is_fresh (dom h)). by eapply merge_inv_cell_dom.
Qed.

(** Extending the parts of the last turn keeps the invariant and changes
    that turn alone. *)
Lemma extend_last_inv h0 h merged cells ts d c t p ps :
  merge_inv h0 h merged (cells ++ [(d, c)]) (ts ++ [t]) ->
  get_parts h p = Some ps ->
  exists h',
    extend_last h d p = Some h'
    /\ merge_inv h0 h' merged (cells ++ [(d, c)])
         (ts ++ [{| role := role t; parts := parts t ++ ps |}]).
Proof.
  intros [Hf Hm Hn Hc Hd] Hp.
  apply Forall2_app_inv in Hc as [Hc Hlast];
    [|apply Forall2_length in Hc; rewrite !length_app in Hc; simpl in Hc; lia].
  apply Forall2_cons_1 in Hlast as [(H1 & H2 & H3 & H4) _]. simpl in *.
  unfold extend_last, get_dict. rewrite H1. simpl.
  unfold get_parts in *. rewrite H2. simpl.
  destruct (h !! p) as [[ys| |]|] eqn:Ep; try discriminate.
  injection Hp as ->. simpl.
  eexists. split; [reflexivity|].
  rewrite fmap_app in Hd. apply NoDup_app in Hd as (Hd1 & Hd2 & _). simpl in Hd2.
  split.
  - apply insert_subseteq_r; [by apply not_elem_of_dom|done].
  - rewrite lookup_insert_ne; [done|]. apart H2 Hm.
  - done.
  - apply Forall2_app.
    + apply Forall2_same_length_lookup_2; [by eapply Forall2_length|].
      intros i [d' c'] t' Hi Ht.
      destruct (Forall2_lookup_lr _ _ _ _ _ _ Hc Hi Ht) as (G1 & G2 & G3 & G4).
      simpl in *.
      split_and!; try done; simpl.
      * rewrite lookup_insert_ne; [done|]. apart H2 G1.
      * rewrite lookup_insert_ne; [done|]. intros <-.
        apply (Hd2 c); [|by left].
        apply list_elem_of_fmap. exists (d', c). split; [done|].
        by eapply list_elem_of_lookup_2.
    + constructor; [|constructor]. split_and!; try done; simpl.
      * rewrite lookup_insert_ne; [done|]. apart H2 H1.
      * by rewrite lookup_insert_eq.
  - rewrite fmap_app. apply NoDup_app. split_and!; [done|done|apply NoDup_singleton].
Qed.

Lemma merge_into_inv h0 h merged cells ts r p ps :
  merge_inv h0 h merged cells ts ->
  get_parts h p = Some ps ->
  exists h' cells',
    merge_into merged h r p = Some h'
    /\ merge_inv h0 h' merged cells' (merge_step ts {| role := r; parts := ps |}).
Proof.
  intros Hinv Hp. unfold merge_into, get_seq.
  rewrite (inv_merged _ _ _ _ _ Hinv). simpl.
  destruct cells as [|[d c] cells _] using rev_ind.
  - pose proof (inv_cells _ _ _ _ _ Hinv) as Hc.
    apply Forall2_nil_inv_l in Hc as ->. simpl.
    apply (append_copy_inv h0 h merged [] []); done.
  - pose proof (inv_cells _ _ _ _ _ Hinv) as Hc.
    apply Forall2_app_inv_l in Hc as (ts' & k & Hc1 & Hc2 & ->).
    apply Forall2_cons_inv_l in Hc2 as (t & k' & Ht & Hk & ->).
    apply Forall2_nil_inv_l in Hk as ->.
    rewrite fmap_app. change (fst <$> [(d, c)]) with [d]. rewrite last_snoc. simpl.
    destruct Ht as (H1 & _). simpl in H1.
    unfold get_dict at 1. rewrite H1. simpl.
    rewrite merge_step_snoc. simpl.
    destruct (String.eqb (role t) r).
    + destruct (extend_last_inv _ _ _ _ _ _ _ _ _ _ Hinv Hp) as (h' & Hh' & Hinv').
      eauto.
    + apply (append_copy_inv h0 h merged _ _ r p ps Hinv Hp).
Qed.

Lemma merge_step_store_inv h0 h merged cells ts m t :
  merge_inv h0 h merged cells ts ->
  read_turn h0 m = Some t ->
  exists h' cells',
    merge_step_store merged h m = Some h'
    /\ merge_inv h0 h' merged cells' (merge_step ts t).
Proof.
  intros Hinv Hread.
  pose proof (inv_frame _ _ _ _ _ Hinv) as Hsub.
  unfold read_turn, get_dict in Hread.
  destruct (h0 !! m) as [[|r p|]|] eqn:Em; try discriminate. simpl in Hread.
  unfold merge_step_store, get_dict. rewrite (lookup_weaken _ _ _ _ Em Hsub). simpl.
  destruct p as [q|].
  - unfold get_parts in Hread.
    destruct (h0 !! q) as [[ps| |]|] eqn:Eq; try discriminate.
    injection Hread as <-.
    apply (merge_into_inv h0 h merged cells ts r q ps Hinv).
    unfold get_parts. by rewrite (lookup_weaken _ _ _ _ Eq Hsub).
  - injection Hread as <-.
    apply (merge_into_inv h0 _ merged cells ts r _ []).
    + eapply merge_inv_weaken; [exact Hinv|apply alloc_subseteq].
    + unfold get_parts. by rewrite lookup_insert_eq.
Qed.

Lemma merge_loop_store_inv h0 msgs tin :
  Forall2 (fun m t => read_turn h0 m = Some t) msgs tin ->
  forall h merged cells ts,
    merge_inv h0 h merged cells ts ->
    exists h' cells',
      merge_loop_store merged h msgs = Some h'
      /\ merge_inv h0 h' merged cells' (fold_left merge_step tin ts).
Proof.
  induction 1 as [|m t msgs tin Hm _ IH]; intros h merged cells ts Hinv; simpl.
  - eauto.
  - destruct (merge_step_store_inv _ _ _ _ _ _ _ Hinv Hm) as (h1 & cells1 & -> & Hinv1).
    simpl. apply (IH _ _ _ _ Hinv1).
Qed.

Lemma merge_inv_read h0 h merged cells ts :
  merge_inv h0 h merged cells ts -> read_turns h merged = Some ts.
Proof.
  intros [_ Hm _ Hc _]. unfold read_turns, get_seq. rewrite Hm. simpl.
  apply mapM_Some, Forall2_fmap_l.
  eapply Forall2_impl; [exact Hc|].
  intros [d c] t (H1 & H2 & _). simpl in *.
  unfold read_turn, get_dict, get_parts. rewrite H1. simpl. rewrite H2. simpl.
  by rewrite turn_eta.
Qed.

(** C10. [merge_messages] leaves its input as it found it. Called on a
    store in which [messages] is a list of messages (dicts with a role
    and, possibly, a parts list; lists may be shared), it returns; every
    object of the store it was called on, the input list, the input dicts
    and their parts lists among them, is the same object with the same
    content afterwards; the list it returns, the dicts in it and their
    parts lists are objects that did not exist before the call; and the
    list returned reads as [merge_messages] of the input. *)
Theorem merge_messages_leaves_input (h : gmap loc obj) (messages : loc)
    (turns : list Turn) :
  read_turns h messages = Some turns ->
  exists h' merged mg,
    merge_messages_store h messages = Some (h', merged)
    /\ (forall l o, h !! l = Some o -> h' !! l = Some o)
    /\ read_turns h' messages = Some turns
    /\ read_turns h' merged = Some (merge_messages turns)
    /\ (merged ∉ dom h)
    /\ get_seq h' merged = Some mg
    /\ Forall (fun d => (d ∉ dom h) /\
                 exists r c, get_dict h' d = Some (r, Some c) /\ (c ∉ dom h)) mg.
Proof.
  intros Hread. unfold read_turns in Hread.
  destruct (get_seq h messages) as [msgs|] eqn:Emsgs; [|discriminate].
  simpl in Hread. apply mapM_Some in Hread.
  unfold merge_messages_store. rewrite Emsgs. simpl.
  set (merged := fresh (dom h)). set (h1 := <[merged := OSeq []]> h).
  assert (merge_inv h h1 merged [] []) as Hinv.
  { split; try done.
    - apply alloc_subseteq.
    - apply lookup_insert_eq.
    - apply is_fresh.
    - constructor. }
  destruct (merge_loop_store_inv h msgs turns Hread _ _ _ _ Hinv)
    as (h' & cells & -> & Hinv').
  simpl. exists h', merged, cells.*1.
  pose proof (inv_frame _ _ _ _ _ Hinv') as Hsub.
  split_and!.
  - reflexivity.
  - intros l o Hl. by apply (lookup_weaken h).
  - unfold read_turns, get_seq in *.
    destruct (h !! messages) as [[| |ms]|] eqn:Em; try discriminate.
    injection Emsgs as ->.
    rewrite (lookup_weaken _ _ _ _ Em Hsub). simpl.
    apply mapM_Some. eapply Forall2_impl; [exact Hread|].
    intros m t Hm. unfold read_turn, get_dict, get_parts in *.
    destruct (h !! m) as [[|r p|]|] eqn:Edict; try discriminate.
    rewrite (lookup_weaken _ _ _ _ Edict Hsub). simpl in *.
    destruct p as [q|]; [|done].
    destruct (h !! q) as [[ps| |]|] eqn:Eq; try discriminate.
    by rewrite (lookup_weaken _ _ _ _ Eq Hsub).
  - apply (merge_inv_read _ _ _ _ _ Hinv').
  - apply is_fresh.
  - unfold get_seq. by rewrite (inv_merged _ _ _ _ _ Hinv').
  - apply Forall_fmap, Forall_forall. intros [d c] Hin.
    apply list_elem_of_lookup in Hin as [i Hi].
    destruct (Forall2_lookup_l _ _ _ _ _ (inv_cells _ _ _ _ _ Hinv') Hi)
      as (t & _ & H1 & H2 & H3 & H4).
    simpl in *. split; [done|]. exists (role t), c.
    unfold get_dict. by rewrite H1.
Qed.

Example sample_store_merged :
  (h' ← fst <$> merge_messages_store sample_store 1%positive;
   Some (read_turns h' 1%positive, read_turns h' 6%positive, h' !! 5%positive))
  = Some (Some [{| role := "user"; parts := [PText "a"] |};
                {| role := "user"; parts := [PText "a"] |};
                {| role := "model"; parts := [] |}],
          Some [{| role := "user"; parts := [PText "a"; PText "a"] |};
                {| role := "model"; parts := [] |}],
          Some (OParts [PText "a"])).
Proof. vm_compute. reflexivity. Qed.

Lemma merge_messages_leaves_input_witness :
  read_turns sample_store 1%positive =
    Some [{| role := "user"; parts := [PText "a"] |};
          {| role := "user"; parts := [PText "a"] |};
          {| role := "model"; parts := [] |}]
  /\ exists h' merged mg,
    merge_messages_store sample_store 1%positive = Some (h', merged)
    /\ (forall l o, sample_store !! l = Some o -> h' !! l = Some o)
    /\ read_turns h' 1%positive =
         Some [{| role := "user"; parts := [PText "a"] |};
               {| role := "user"; parts := [PText "a"] |};
               {| role := "model"; parts := [] |}]
    /\ read_turns h' merged =
         Some (merge_messages [{| role := "user"; parts := [PText "a"] |};
                               {| role := "user"; parts := [PText "a"] |};
                               {| role := "model"; parts := [] |}])
    /\ (merged ∉ dom sample_store)
    /\ get_seq h' merged = Some mg
    /\ Forall (fun d => (d ∉ dom sample_store) /\
                 exists r c, get_dict h' d = Some (r, Some c)
                             /\ (c ∉ dom sample_store)) mg.
Proof.
  assert (read_turns sample_store 1%positive =
    Some [{| role := "user"; parts := [PText "a"] |};
          {| role := "user"; parts := [PText "a"] |};
          {| role := "model"; parts := [] |}]) as H by (vm_compute; reflexivity).
  split; [exact H|].
  exact (merge_messages_leaves_input sample_store 1%positive _ H).
Defined.

(** * Further properties *)

(** ** The converter, characterised *)

Lemma failure_of_bind {A B} (r : result A) (k : A -> result B) :
  failure_of (let* a := r in k a) =
  match r with Ok a => failure_of (k a) | _ => failure_of r end.
Proof. by destruct r. Qed.

Lemma collect_inv {A B} (f : A -> result B) (l : list A) (k : list B) :
  collect (map f l) = Ok k -> Forall2 (fun x y => f x = Ok y) l k.
Proof.
  revert k. induction l as [|x l IH]; intros k; simpl.
  - intros [= <-]. constructor.
  - destruct (f x) as [y| |] eqn:Ex; simpl; try discriminate.
    destruct (collect (map f l)) as [k'| |]; simpl; try discriminate.
    intros [= <-]. constructor; [done|by apply IH].
Qed.

(** A failing [collect] fails at its first element that is no value. *)
Lemma collect_first_failure {A B} (f : A -> result B) (l : list A) fl :
  failure_of (collect (map f l)) = Some fl ->
  exists pre x post,
    l = pre ++ x :: post
    /\ Forall (fun x => exists y, f x = Ok y) pre
    /\ failure_of (f x) = Some fl.
Proof.
  induction l as [|x l IH]; simpl; [discriminate|].
  destruct (f x) as [y| |] eqn:Ex; simpl.
  - destruct (collect (map f l)) as [k| |] eqn:Ec; simpl; try discriminate;
      intros H; destruct (IH H) as (pre & z & post & -> & Hpre & Hz);
      exists (x :: pre), z, post; (split_and!; [done| |done]);
      constructor; eauto.
  - intros [= <-]. exists [], x, l. rewrite Ex. by split_and!.
  - intros [= <-]. exists [], x, l. rewrite Ex. by split_and!.
Qed.

Section ConverterCharacterised.

Variable json_loads : string -> option json.

Lemma render_at_ok_inv pl b p :
  render_at json_loads pl b = Ok p -> block_ok json_loads pl b = true.
Proof.
  unfold block_ok.
  destruct pl as [role|], b as [t|v|t|name args|name r|n]; simpl; try done;
    try (destruct (String.eqb role _); simpl; try done);
    try (destruct args as [| | | |s| |]; simpl; try done;
         destruct (json_loads s); simpl; done).
Qed.

Lemma render_at_skip_inv pl b w :
  render_at json_loads pl b = Skip w ->
  supported pl b = false /\ w = unsupported_warning pl b.
Proof.
  destruct pl as [role|], b as [t|v|t|name args|name r|n]; simpl; try done;
    try (by intros [= <-]);
    try (destruct (String.eqb role _); simpl; try done; try (by intros [= <-]));
    destruct args as [| | | |s| |]; simpl; try done;
    destruct (json_loads s); simpl; done.
Qed.

Lemma render_at_raise_inv pl b e :
  render_at json_loads pl b = Raise e ->
  exists name s,
    b = ToolCall name (JStr s) /\ supported pl b = true
    /\ json_loads s = None /\ e = JSONDecodeError s.
Proof.
  destruct pl as [role|], b as [t|v|t|name args|name r|n]; simpl; try done;
    try (destruct (String.eqb role _) eqn:Er; simpl; try done);
    destruct args as [| | | |s| |]; simpl; try done;
    destruct (json_loads s) eqn:El; simpl; try done;
    intros [= <-]; exists name, s; by split_and!.
Qed.

Lemma blocks_ok_inv pl bs :
  Forall (fun b => exists p, render_at json_loads pl b = Ok p) bs ->
  forallb (block_ok json_loads pl) bs = true.
Proof.
  intros H. apply forallb_forall. intros b Hb.
  rewrite List.Forall_forall in H. destruct (H b Hb) as [p Hp].
  by eapply render_at_ok_inv.
Qed.

(** What a message yields, told from its blocks and its role. *)
Lemma render_chat_message_cases (m : Message) :
  match render_chat_message json_loads (msg_role m) (content m) with
  | Ok t =>
      message_ok json_loads m = true
      /\ role_map (msg_role m) = Some (role t)
      /\ Forall2 (fun b p => render_block json_loads (msg_role m) b = Ok p)
                 (content m) (parts t)
  | Skip w =>
      exists bs1 b bs2,
        content m = bs1 ++ b :: bs2
        /\ forallb (block_ok json_loads (InMessage (msg_role m))) bs1 = true
        /\ render_block json_loads (msg_role m) b = Skip w
  | Raise e =>
      (exists bs1 b bs2,
         content m = bs1 ++ b :: bs2
         /\ forallb (block_ok json_loads (InMessage (msg_role m))) bs1 = true
         /\ render_block json_loads (msg_role m) b = Raise e)
      \/ (forallb (block_ok json_loads (InMessage (msg_role m))) (content m) = true
          /\ role_map (msg_role m) = None /\ e = KeyError (msg_role m))
  end.
Proof.
  unfold render_chat_message. rewrite render_blocks_collect.
  destruct (collect (map (render_block json_loads (msg_role m)) (content m)))
    as [ps|w|e] eqn:Ec; simpl.
  - pose proof (collect_inv _ _ _ Ec) as HF.
    assert (forallb (block_ok json_loads (InMessage (msg_role m))) (content m) = true)
      as Hok.
    { apply blocks_ok_inv, List.Forall_forall. intros b Hb.
      apply list_elem_of_In, list_elem_of_lookup in Hb as [i Hi].
      destruct (Forall2_lookup_l _ _ _ _ _ HF Hi) as (p & _ & Hp). eauto. }
    destruct (role_map (msg_role m)) as [r|] eqn:Er.
    + unfold message_ok. rewrite Hok, Er. simpl. split_and!; try done.
    + right. by split_and!.
  - destruct (collect_first_failure _ _ (inl w)
               ltac:(by rewrite Ec)) as (bs1 & b & bs2 & Hb & Hpre & Hf).
    exists bs1, b, bs2. split_and!; [done|by apply blocks_ok_inv|].
    by destruct (render_block json_loads (msg_role m) b); simplify_eq/=.
  - left.
    destruct (collect_first_failure _ _ (inr e)
               ltac:(by rewrite Ec)) as (bs1 & b & bs2 & Hb & Hpre & Hf).
    exists bs1, b, bs2. split_and!; [done|by apply blocks_ok_inv|].
    by destruct (render_block json_loads (msg_role m) b); simplify_eq/=.
Qed.

Lemma messages_ok_inv ms ts :
  Forall2 (fun m t => render_chat_message json_loads (msg_role m) (content m) = Ok t)
          ms ts ->
  forallb (message_ok json_loads) ms = true.
Proof.
  intros HF. apply forallb_forall. intros m Hm.
  apply list_elem_of_In, list_elem_of_lookup in Hm as [i Hi].
  destruct (Forall2_lookup_l _ _ _ _ _ HF Hi) as (t & _ & Ht).
  pose proof (render_chat_message_cases m) as Hc. rewrite Ht in Hc. apply Hc.
Qed.

Lemma messages_ok_pre ms :
  Forall (fun m => exists t,
            render_chat_message json_loads (msg_role m) (content m) = Ok t) ms ->
  forallb (message_ok json_loads) ms = true.
Proof.
  intros HF. apply forallb_forall. intros m Hm.
  rewrite List.Forall_forall in HF. destruct (HF m Hm) as [t Ht].
  pose proof (render_chat_message_cases m) as Hc. rewrite Ht in Hc. apply Hc.
Qed.

Lemma inference_cases (inf : Inference) :
  match inference_to_google json_loads inf with
  | Ok p => valid json_loads inf = true
  | Skip w =>
      exists pl b,
        reached json_loads inf pl b
        /\ supported pl b = false /\ w = unsupported_warning pl b
  | Raise e =>
      (exists pl name s,
         reached json_loads inf pl (ToolCall name (JStr s))
         /\ supported pl (ToolCall name (JStr s)) = true
         /\ json_loads s = None /\ e = JSONDecodeError s)
      \/ (exists r, unknown_role_reached json_loads inf r /\ e = KeyError r)
  end.
Proof.
  unfold inference_to_google, rendered_msgs.
  rewrite render_messages_collect.
  destruct (collect (map (fun m => render_chat_message json_loads (msg_role m) (content m))
                         (messages (input inf)))) as [ts|w|e] eqn:Em; simpl.
  - pose proof (messages_ok_inv _ _ (collect_inv _ _ _ Em)) as Hms.
    rewrite render_output_collect.
    destruct (collect (map (render_output_block json_loads) (output inf)))
      as [ps|w|e] eqn:Eo; simpl.
    + unfold valid. rewrite Hms. simpl.
      apply (blocks_ok_inv InOutput), List.Forall_forall. intros b Hb.
      apply list_elem_of_In, list_elem_of_lookup in Hb as [i Hi].
      destruct (Forall2_lookup_l _ _ _ _ _ (collect_inv _ _ _ Eo) Hi) as (p & _ & Hp).
      eauto.
    + destruct (collect_first_failure _ _ (inl w) ltac:(by rewrite Eo))
        as (bs1 & b & bs2 & Hb & Hpre & Hf).
      assert (render_at json_loads InOutput b = Skip w) as Hs
        by (simpl; by destruct (render_output_block json_loads b); simplify_eq/=).
      destruct (render_at_skip_inv _ _ _ Hs) as [Hu ->].
      exists InOutput, b. split_and!; try done.
      apply (reached_in_output json_loads inf bs1 b bs2); try done.
      by apply (blocks_ok_inv InOutput).
    + left.
      destruct (collect_first_failure _ _ (inr e) ltac:(by rewrite Eo))
        as (bs1 & b & bs2 & Hb & Hpre & Hf).
      assert (render_at json_loads InOutput b = Raise e) as Hs
        by (simpl; by destruct (render_output_block json_loads b); simplify_eq/=).
      destruct (render_at_raise_inv _ _ _ Hs) as (name & s & -> & Hsup & Hl & ->).
      exists InOutput, name, s. split_and!; try done.
      apply (reached_in_output json_loads inf bs1 _ bs2); try done.
      by apply (blocks_ok_inv InOutput).
  - destruct (collect_first_failure _ _ (inl w) ltac:(by rewrite Em))
      as (ms1 & m & ms2 & Hm & Hpre & Hf).
    apply messages_ok_pre in Hpre.
    pose proof (render_chat_message_cases m) as Hc.
    destruct (render_chat_message json_loads (msg_role m) (content m));
      simplify_eq/=.
    destruct Hc as (bs1 & b & bs2 & Hb & Hok & Hs).
    destruct (render_at_skip_inv (InMessage (msg_role m)) _ _ Hs) as [Hu ->].
    exists (InMessage (msg_role m)), b. split_and!; try done.
    by apply (reached_in_message json_loads inf ms1 m ms2 bs1 b bs2).
  - destruct (collect_first_failure _ _ (inr e) ltac:(by rewrite Em))
      as (ms1 & m & ms2 & Hm & Hpre & Hf).
    apply messages_ok_pre in Hpre.
    pose proof (render_chat_message_cases m) as Hc.
    destruct (render_chat_message json_loads (msg_role m) (content m));
      simplify_eq/=.
    destruct Hc as [(bs1 & b & bs2 & Hb & Hok & Hs)|(Hok & Hr & ->)].
    + left.
      destruct (render_at_raise_inv (InMessage (msg_role m)) _ _ Hs)
        as (name & s & -> & Hsup & Hl & ->).
      exists (InMessage (msg_role m)), name, s. split_and!; try done.
      by apply (reached_in_message json_loads inf ms1 m ms2 bs1 _ bs2).
    + right. exists (msg_role m). split; [|done].
      exists ms1, m, ms2. by split_and!.
Qed.

Lemma unknown_role_raises inf r :
  unknown_role_reached json_loads inf r ->
  inference_to_google json_loads inf = Raise (KeyError r).
Proof.
  intros (ms1 & m & ms2 & Hm & Hpre & Hok & Hr & ->).
  assert (render_chat_message json_loads (msg_role m) (content m) =
          Raise (KeyError (msg_role m))) as Hraise.
  { unfold render_chat_message. rewrite render_blocks_collect.
    destruct (collect_ok (render_block json_loads (msg_role m)) _
                (blocks_ok json_loads (InMessage (msg_role m)) _ Hok)) as (ps & -> & _).
    simpl. by rewrite Hr. }
  pose proof (collect_stops
    (fun m => render_chat_message json_loads (msg_role m) (content m)) ms1 ms2 m
    (messages_ok json_loads _ Hpre)) as Hc.
  cbv beta in Hc. rewrite Hraise in Hc. simpl in Hc.
  unfold inference_to_google, rendered_msgs.
  by rewrite render_messages_collect, Hm, Hc.
Qed.

Lemma valid_payload (inf : Inference) :
  valid json_loads inf = true ->
  exists payload, inference_to_google json_loads inf = Ok payload.
Proof.
  unfold valid. rewrite andb_true_iff. intros [Hm Ho].
  destruct (collect_ok _ _ (messages_ok json_loads _ Hm)) as (msgs & Hmsgs & _).
  destruct (collect_ok (render_output_block json_loads) _
              (blocks_ok json_loads InOutput _ Ho)) as (out_parts & Hout & _).
  unfold inference_to_google, rendered_msgs.
  rewrite render_messages_collect, Hmsgs. simpl.
  rewrite render_output_collect, Hout. simpl. eauto.
Qed.

(** X1. [inference_to_google] returns a payload exactly for the valid
    records: those whose messages have roles of [role_map] and whose
    blocks are all supported where they stand, with argument texts that
    [json.loads] accepts. *)
Theorem payload_iff_valid (inf : Inference) :
  (exists payload, inference_to_google json_loads inf = Ok payload)
  <-> valid json_loads inf = true.
Proof.
  split.
  - intros [p Hp]. pose proof (inference_cases inf) as Hc. by rewrite Hp in Hc.
  - apply valid_payload.
Qed.

(** X2. [inference_to_google] returns [None] with a warning exactly when
    the first thing in the record that is not rendered is an unsupported
    block; the warning is the one for that block. *)
Theorem skip_iff_unsupported_first (inf : Inference) (w : warning) :
  inference_to_google json_loads inf = Skip w
  <-> exists pl b,
        reached json_loads inf pl b
        /\ supported pl b = false /\ w = unsupported_warning pl b.
Proof.
  split.
  - intros Hs. pose proof (inference_cases inf) as Hc. by rewrite Hs in Hc.
  - intros (pl & b & Hr & Hu & ->).
    pose proof (reached_stops json_loads _ _ _ Hr) as H.
    by rewrite (render_at_unsupported json_loads _ _ Hu) in H.
Qed.

(** X3. [inference_to_google] raises in two cases only: the first thing
    not rendered is a supported tool call whose argument text
    [json.loads] rejects ([JSONDecodeError]), or it is a message all of
    whose blocks are rendered but whose role is no key of [role_map]
    ([KeyError] with that role). *)
Theorem raise_iff_malformed_or_unknown_role (inf : Inference) (e : exn) :
  inference_to_google json_loads inf = Raise e
  <-> (exists pl name s,
         reached json_loads inf pl (ToolCall name (JStr s))
         /\ supported pl (ToolCall name (JStr s)) = true
         /\ json_loads s = None /\ e = JSONDecodeError s)
      \/ (exists ms1 m ms2,
            messages (input inf) = ms1 ++ m :: ms2
            /\ forallb (message_ok json_loads) ms1 = true
            /\ forallb (block_ok json_loads (InMessage (msg_role m))) (content m) = true
            /\ role_map (msg_role m) = None
            /\ e = KeyError (msg_role m)).
Proof.
  split.
  - intros Hs. pose proof (inference_cases inf) as Hc. rewrite Hs in Hc.
    destruct Hc as [Hc|(r & (ms1 & m & ms2 & H1 & H2 & H3 & H4 & ->) & ->)];
      [by left|right].
    exists ms1, m, ms2. by split_and!.
  - intros [(pl & name & s & Hr & Hu & Hl & ->)
           |(ms1 & m & ms2 & H1 & H2 & H3 & H4 & ->)].
    + pose proof (reached_stops json_loads _ _ _ Hr) as H.
      by rewrite (render_at_malformed json_loads _ _ _ Hu Hl) in H.
    + apply unknown_role_raises. exists ms1, m, ms2. by split_and!.
Qed.

(** X4. A message that is rendered gives one part for each of its blocks,
    in order, each the rendering of its block, under the role that
    [role_map] gives. *)
Theorem rendered_message_blockwise (m : Message) (t : Turn) :
  render_chat_message json_loads (msg_role m) (content m) = Ok t ->
  role_map (msg_role m) = Some (role t)
  /\ length (parts t) = length (content m)
  /\ Forall2 (fun b p => render_block json_loads (msg_role m) b = Ok p)
             (content m) (parts t).
Proof.
  intros Ht. pose proof (render_chat_message_cases m) as Hc. rewrite Ht in Hc.
  destruct Hc as (_ & Hr & HF). split_and!; try done.
  symmetry. by eapply Forall2_length.
Qed.

(** X5. The output loop agrees with [render_chat_message] on an assistant
    message for every block it supports (text, thought, tool call); the
    two differ on raw text, which the output loop does not accept. *)
Theorem output_agrees_with_assistant (blk : block) :
  (if supported InOutput blk
   then render_output_block json_loads blk = render_block json_loads "assistant" blk
   else exists w, render_output_block json_loads blk = Skip w)
  /\ (forall v, render_block json_loads "assistant" (RawText v) = Ok (PText v)
              /\ render_output_block json_loads (RawText v) =
                 Skip (UnsupportedOutputBlock "RawText")).
Proof.
  split; [|done]. destruct blk; simpl; eauto.
Qed.

End ConverterCharacterised.

(** ** The batch loop *)

Section BatchProperties.

Variable json_loads : string -> option json.

Lemma convert_loop_no_raise (l : list Inference) (ps : list Payload) (ws : list warning) :
  Forall (fun inf => raises (inference_to_google json_loads inf) = false) l ->
  convert_loop json_loads l ps ws =
  {| google_payloads :=
       ps ++ omap (fun inf => result_value (inference_to_google json_loads inf)) l;
     warnings :=
       ws ++ omap (fun inf => result_warning (inference_to_google json_loads inf)) l;
     raised := None |}.
Proof.
  intros H. revert ps ws. induction H as [|inf l Hinf _ IH]; intros ps ws; simpl.
  - by rewrite !app_nil_r.
  - destruct (inference_to_google json_loads inf) as [p|w|e]; simpl in *;
      [| |discriminate]; rewrite IH; by rewrite <- app_assoc.
Qed.

Lemma convert_loop_app (l1 l2 : list Inference) (ps : list Payload) (ws : list warning) :
  convert_loop json_loads (l1 ++ l2) ps ws =
  let c := convert_loop json_loads l1 ps ws in
  match raised c with
  | Some _ => c
  | None => convert_loop json_loads l2 (google_payloads c) (warnings c)
  end.
Proof.
  revert ps ws. induction l1 as [|inf l1 IH]; intros ps ws; simpl; [done|].
  destruct (inference_to_google json_loads inf); simpl; [apply IH..|done].
Qed.

(** X6. When no record of the batch raises, the loop ends without an
    exception, [google_payloads] holds the payloads of the converted
    records in record order, the warnings are those of the skipped
    records in order, and every record is either converted or warned
    about. *)
Theorem batch_without_exception (l : list Inference) :
  Forall (fun inf => raises (inference_to_google json_loads inf) = false) l ->
  raised (convert_all json_loads l) = None
  /\ google_payloads (convert_all json_loads l) =
     omap (fun inf => result_value (inference_to_google json_loads inf)) l
  /\ warnings (convert_all json_loads l) =
     omap (fun inf => result_warning (inference_to_google json_loads inf)) l
  /\ length (google_payloads (convert_all json_loads l))
     + length (warnings (convert_all json_loads l)) = length l.
Proof.
  intros H. unfold convert_all. rewrite (convert_loop_no_raise _ _ _ H). simpl.
  split_and!; try done.
  induction H as [|inf l Hinf _ IH]; simpl; [done|].
  unfold omap in IH.
  destruct (inference_to_google json_loads inf); simpl in *; [lia..|discriminate].
Qed.

(** X7. The loop stops at the first record that raises, whatever the
    exception: the payloads and warnings are those of the records before
    it, and no record after it is looked at. *)
Theorem batch_stops_at_first_exception (pre post : list Inference)
    (inf : Inference) (e : exn) :
  Forall (fun inf => raises (inference_to_google json_loads inf) = false) pre ->
  inference_to_google json_loads inf = Raise e ->
  convert_all json_loads (pre ++ inf :: post) =
  {| google_payloads :=
       omap (fun inf => result_value (inference_to_google json_loads inf)) pre;
     warnings :=
       omap (fun inf => result_warning (inference_to_google json_loads inf)) pre;
     raised := Some e |}.
Proof.
  intros Hpre He. unfold convert_all.
  rewrite convert_loop_app, (convert_loop_no_raise _ _ _ Hpre). simpl.
  by rewrite He.
Qed.

(** X8. Batches compose: converting [l1 ++ l2] is converting [l1] and, if
    that ended without an exception, going on with [l2] from the payloads
    and warnings reached; if [l1] raised, [l2] changes nothing. *)
Theorem batch_composition (l1 l2 : list Inference) :
  convert_all json_loads (l1 ++ l2) =
  match raised (convert_all json_loads l1) with
  | Some _ => convert_all json_loads l1
  | None =>
      convert_loop json_loads l2
        (google_payloads (convert_all json_loads l1))
        (warnings (convert_all json_loads l1))
  end.
Proof. apply convert_loop_app. Qed.

(** X9. The payloads keep the episode ids of their records: the episode
    ids of [google_payloads] are those of the converted records, in
    record order. *)
Theorem payload_episode_ids (l : list Inference) :
  Forall (fun inf => raises (inference_to_google json_loads inf) = false) l ->
  map payload_episode_id (google_payloads (convert_all json_loads l)) =
  map episode_id (List.filter (valid json_loads) l).
Proof.
  intros H. unfold convert_all. rewrite (convert_loop_no_raise _ _ _ H). simpl.
  clear H. induction l as [|inf l IH]; simpl; [done|].
  pose proof (inference_cases json_loads inf) as Hc.
  destruct (inference_to_google json_loads inf) as [p|w|e] eqn:E; simpl.
  - rewrite Hc. simpl. f_equal; [|exact IH].
    unfold inference_to_google in E.
    destruct (rendered_msgs json_loads inf); simpl in E; by simplify_eq.
  - destruct (valid json_loads inf) eqn:Ev; [|exact IH].
    apply (valid_payload json_loads) in Ev as [p Hp]. congruence.
  - destruct (valid json_loads inf) eqn:Ev; [|exact IH].
    apply (valid_payload json_loads) in Ev as [p Hp]. congruence.
Qed.

End BatchProperties.

(** ** More on merging *)

Lemma merge_messages_alternating (l : list Turn) : alternating (merge_messages l).
Proof.
  destruct l as [|x l]; [done|].
  rewrite merge_messages_cons. apply merge_from_alternating.
Qed.

Lemma merge_messages_fixed (l : list Turn) :
  alternating l -> merge_messages l = l.
Proof.
  destruct l as [|x l]; [done|]. intros H.
  rewrite merge_messages_cons. by apply merge_from_fixed.
Qed.

Lemma merge_from_length (l : list Turn) (x : Turn) :
  length (merge_from x l) <= S (length l)
  /\ (length (merge_from x l) = S (length l) -> alternating (x :: l)).
Proof.
  revert x. induction l as [|y l IH]; intros x; simpl; [by split|].
  destruct (String.eqb (role x) (role y)) eqn:E.
  - destruct (IH {| role := role x; parts := parts x ++ parts y |}) as [Hle _].
    split; lia.
  - destruct (IH y) as [Hle Halt]. simpl. split; [lia|].
    intros Hlen. split; [|apply Halt; lia].
    intros Heq. rewrite Heq, String.eqb_refl in E. discriminate.
Qed.

(** X10. What [merge_messages] returns never has two neighbouring turns
    of one role, and the lists it leaves unchanged are exactly those that
    have no such neighbours. *)
Theorem merged_turns_alternate (l : list Turn) :
  alternating (merge_messages l)
  /\ (merge_messages l = l <-> alternating l).
Proof.
  split; [apply merge_messages_alternating|]. split.
  - intros <-. apply merge_messages_alternating.
  - apply merge_messages_fixed.
Qed.

(** X11. Merging never adds a turn, keeps at least one turn of a
    non-empty list, and keeps the number of turns exactly when no two
    neighbours share a role. *)
Theorem merged_turns_count (l : list Turn) :
  length (merge_messages l) <= length l
  /\ (l <> [] -> 1 <= length (merge_messages l))
  /\ (length (merge_messages l) = length l <-> alternating l).
Proof.
  destruct l as [|x l]; [by split_and!|].
  rewrite merge_messages_cons.
  destruct (merge_from_length l x) as [Hle Halt].
  destruct (merge_from_head l x) as (ps & tl & E).
  split_and!.
  - simpl. lia.
  - intros _. rewrite E. simpl. lia.
  - split; [exact Halt|]. intros H. by rewrite (merge_from_fixed _ _ H).
Qed.

(** X12. A list may be merged in pieces: merging [l1 ++ l2] is the same
    as merging [l1] first and then merging its result followed by [l2]. *)
Theorem merge_in_pieces (l1 l2 : list Turn) :
  merge_messages (l1 ++ l2) = merge_messages (merge_messages l1 ++ l2).
Proof.
  unfold merge_messages at 1 2. rewrite !fold_left_app.
  f_equal. symmetry.
  apply (merge_messages_fixed _ (merge_messages_alternating l1)).
Qed.

Lemma merge_step_last (merged : list Turn) (msg : Turn) :
  exists before,
    last (merge_step merged msg) =
    Some {| role := role msg; parts := before ++ parts msg |}.
Proof.
  unfold merge_step. destruct (last merged) as [top|] eqn:El.
  - destruct (String.eqb (role top) (role msg)) eqn:E.
    + apply String.eqb_eq in E. exists (parts top).
      apply last_Some in El as [m' ->].
      rewrite length_app. simpl.
      replace (pred (length m' + 1)) with (length m' + 0) by lia.
      rewrite insert_app_r. simpl. by rewrite last_snoc, E.
    + exists []. by rewrite last_snoc.
  - exists []. by rewrite last_snoc.
Qed.

Section PayloadShape.

Variable json_loads : string -> option json.

(** X13. In every payload the contents are not empty, have at most one
    turn more than the record has messages, never have two neighbouring
    turns of one role, and end with a model turn whose parts end with
    the rendered output. *)
Theorem payload_shape (inf : Inference) (payload : Payload) :
  inference_to_google json_loads inf = Ok payload ->
  exists out_parts before,
    render_output json_loads (output inf) [] = Ok out_parts
    /\ last (contents (google_messages payload)) =
       Some {| role := "model"; parts := before ++ out_parts |}
    /\ alternating (contents (google_messages payload))
    /\ 1 <= length (contents (google_messages payload))
         <= length (messages (input inf)) + 1.
Proof.
  unfold inference_to_google, rendered_msgs.
  rewrite render_messages_collect.
  destruct (collect _) as [msgs| |] eqn:Em; simpl; try discriminate.
  destruct (render_output json_loads (output inf) []) as [out_parts| |];
    simpl; try discriminate.
  intros [= <-]. simpl.
  set (out := {| role := "model"; parts := out_parts |}).
  destruct (merge_step_last (merge_messages msgs) out) as [before Hlast].
  exists out_parts, before. split_and!.
  - done.
  - unfold merge_messages at 1. rewrite fold_left_app. exact Hlast.
  - apply merge_messages_alternating.
  - assert (msgs ++ [out] <> []) as Hne by (by destruct msgs).
    destruct (merge_messages (msgs ++ [out])) as [|z k] eqn:E; [|simpl; lia].
    destruct msgs as [|x msgs]; simpl in E.
    + discriminate.
    + rewrite merge_messages_cons in E.
      destruct (merge_from_head (msgs ++ [out]) x) as (ps & tl & E').
      congruence.
  - destruct (msgs ++ [out]) as [|x l] eqn:E; [by destruct msgs|].
    rewrite merge_messages_cons.
    destruct (merge_from_length l x) as [Hle _].
    apply (f_equal length) in E. rewrite length_app in E. simpl in E.
    rewrite (Forall2_length _ _ _ (collect_inv _ _ _ Em)). lia.
Qed.

End PayloadShape.

(** ** More on the split *)

Lemma split_index_lt (n : nat) (val_fraction : Q) :
  (0 < val_fraction)%Q -> 1 <= n ->
  (split_index n val_fraction < Z.of_nat n)%Z.
Proof.
  destruct val_fraction as [a b]. unfold Qlt, split_index, int_of_Q. simpl.
  rewrite ?Pos.mul_1_l, ?Z.mul_1_l, ?Z.mul_1_r, ?Z.mul_0_l.
  intros Ha Hn.
  destruct (Z_lt_le_dec (Z.of_nat n * (Z.pos b + - a)) 0) as [Hneg|Hpos].
  - assert ((Z.of_nat n * (Z.pos b + - a)) ÷ Z.pos b <= 0)%Z
      by (apply Z.quot_le_upper_bound; lia).
    lia.
  - apply Z.quot_lt_upper_bound; nia.
Qed.

Lemma slice_to_subseteq (k : Z) (a : list N) : slice_to k a ⊆ a.
Proof.
  intros x Hx. rewrite <- (slice_to_from k a). apply elem_of_app. by left.
Qed.

Lemma slice_from_subseteq (k : Z) (a : list N) : slice_from k a ⊆ a.
Proof.
  intros x Hx. rewrite <- (slice_to_from k a). apply elem_of_app. by right.
Qed.

Lemma bool_filter_sublist {A} (p : A -> bool) (l : list A) :
  sublist (List.filter p l) l.
Proof.
  induction l as [|x l IH]; simpl; [constructor|].
  destruct (p x); by constructor.
Qed.

Lemma unique_nonempty (l : list N) : l <> [] -> unique l <> [].
Proof. by destruct l. Qed.

Section SplitCounts.

Variable shuffle : nat -> list N -> list N.
Hypothesis shuffle_perm : forall seed l, shuffle seed l ≡ₚ l.

(** Each frame the split returns is the frame filtered by a set of ids. *)
Lemma split_masks seed val_fraction (df train_df val_df : list Payload) :
  split shuffle seed val_fraction df = Ok (train_df, val_df) ->
  exists tr va,
    train_df = List.filter (isin tr) df /\ val_df = List.filter (isin va) df.
Proof.
  destruct df as [|r0 df0]; [discriminate|]. intros H.
  set (ids := shuffle seed (unique (map payload_episode_id (r0 :: df0)))).
  set (k := split_index (length ids) val_fraction).
  exists (slice_to k ids), (slice_from k ids).
  change (Ok (List.filter (isin (slice_to k ids)) (r0 :: df0),
              List.filter (isin (slice_from k ids)) (r0 :: df0))
          = Ok (train_df, val_df)) in H.
  split; congruence.
Qed.

(** The rows whose episode id is in a set of ids of the frame have
    exactly those ids. *)
Lemma selected_episode_ids seed (df : list Payload) (ids' : list N) :
  let ids := shuffle seed (unique (map payload_episode_id df)) in
  NoDup ids' -> ids' ⊆ ids ->
  unique (map payload_episode_id (List.filter (isin ids') df)) ≡ₚ ids'.
Proof.
  intros ids Hnd Hsub.
  apply NoDup_Permutation; [apply unique_NoDup|done|].
  intros x. rewrite unique_elem, list_elem_of_In, in_map_iff. split.
  - intros (row & <- & Hrow). apply filter_In in Hrow as [_ Hin].
    by apply isin_true.
  - intros Hx. pose proof (Hsub x Hx) as Hids.
    unfold ids in Hids. rewrite shuffle_perm, unique_elem in Hids.
    apply list_elem_of_In, in_map_iff in Hids as (row & <- & Hrow).
    exists row. split; [done|]. apply filter_In. split; [done|].
    by apply isin_true.
Qed.

(** The numbers of episodes on each side, for the split at any index. *)
Lemma split_at_counts seed (k : Z) (df train_df val_df : list Payload) :
  split_at shuffle seed k df = Ok (train_df, val_df) ->
  1 <= length (unique (map payload_episode_id df))
  /\ length (unique (map payload_episode_id train_df)) =
     slice_bound k (length (unique (map payload_episode_id df)))
  /\ length (unique (map payload_episode_id val_df)) =
     length (unique (map payload_episode_id df))
     - slice_bound k (length (unique (map payload_episode_id df))).
Proof.
  intros Hs. set (n := length (unique (map payload_episode_id df))).
  destruct df as [|r0 df0]; [discriminate|].
  set (df := r0 :: df0) in *.
  set (ids := shuffle seed (unique (map payload_episode_id df))).
  assert (length ids = n) as Hlen by (unfold ids; by rewrite shuffle_perm).
  assert (NoDup ids) as Hnd by (unfold ids; rewrite shuffle_perm; apply unique_NoDup).
  unfold split_at in Hs. fold df in Hs. fold ids in Hs.
  injection Hs as <- <-.
  pose proof Hnd as Hnd'. rewrite <- (slice_to_from k ids) in Hnd'.
  apply NoDup_app in Hnd' as (Hn1 & _ & Hn2).
  pose proof (Permutation_length
    (selected_episode_ids seed df _ Hn1 (slice_to_subseteq k ids))) as P1.
  pose proof (Permutation_length
    (selected_episode_ids seed df _ Hn2 (slice_from_subseteq k ids))) as P2.
  assert (slice_bound k n <= n) as Hb
    by (unfold slice_bound; destruct (Z.ltb_spec k 0); lia).
  split_and!.
  - unfold n, df. simpl. lia.
  - etrans; [exact P1|]. unfold slice_to. rewrite length_take, Hlen. lia.
  - etrans; [exact P2|]. unfold slice_from. rewrite length_drop, Hlen. lia.
Qed.

Lemma no_episode_no_row (l : list Payload) :
  length (unique (map payload_episode_id l)) = 0 <-> l = [].
Proof. destruct l; simpl; split; (done || lia). Qed.

(** X14. Which frame comes out empty is decided by the split index
    alone: whatever index [k] the cell computes, on a frame with [n]
    distinct episode ids the validation frame is empty exactly when
    [k >= n], and the training frame is empty exactly when [k] is [0] or
    [k <= -n] (a negative index counts from the end of the ids). *)
Theorem empty_frame_iff_split_index seed (k : Z) (df train_df val_df : list Payload) :
  split_at shuffle seed k df = Ok (train_df, val_df) ->
  (val_df = [] <-> (Z.of_nat (length (unique (map payload_episode_id df))) <= k)%Z)
  /\ (train_df = [] <->
        (k = 0 \/ k <= - Z.of_nat (length (unique (map payload_episode_id df))))%Z).
Proof.
  intros Hs. destruct (split_at_counts _ _ _ _ _ Hs) as (Hn & Ht & Hv).
  rewrite <- (no_episode_no_row val_df), <- (no_episode_no_row train_df), Ht, Hv.
  unfold slice_bound.
  destruct (Z.ltb_spec k 0); split; lia.
Qed.

(** X15. The split cell as written (fraction 0.2): on a frame with at
    least two distinct episode ids, neither the training frame nor the
    validation frame is empty. *)
Theorem split_cell_both_nonempty (df : list Payload) :
  2 <= length (unique (map payload_episode_id df)) ->
  exists train_df val_df,
    split_cell shuffle df = Ok (train_df, val_df)
    /\ train_df <> [] /\ val_df <> [].
Proof.
  intros H2. destruct df as [|r0 df0]; [simpl in H2; lia|].
  set (df := r0 :: df0) in *.
  set (ids := shuffle 42 (unique (map payload_episode_id df))).
  set (k := split_index (length ids) VAL_FRACTION).
  exists (List.filter (isin (slice_to k ids)) df),
         (List.filter (isin (slice_from k ids)) df).
  split; [reflexivity|].
  assert (2 <= length ids) as Hlen by (unfold ids; by rewrite shuffle_perm).
  assert (1 <= k < Z.of_nat (length ids))%Z as Hk.
  { split; [|apply split_index_lt; [reflexivity|lia]].
    unfold k, split_index, int_of_Q, VAL_FRACTION. simpl.
    apply Z.quot_le_lower_bound; lia. }
  assert (forall ids', ids' <> [] -> ids' ⊆ ids ->
            List.filter (isin ids') df <> []) as Hsel.
  { intros ids' Hne Hsub Hnil. destruct ids' as [|i rest]; [done|].
    assert (i ∈ ids) as Hi by (apply Hsub; by left).
    unfold ids in Hi. rewrite shuffle_perm, unique_elem in Hi.
    apply list_elem_of_In, in_map_iff in Hi as (row & Hid & Hrow).
    assert (In row (List.filter (isin (i :: rest)) df)) as Hin.
    { apply filter_In. split; [done|]. apply isin_true. rewrite Hid. by left. }
    by rewrite Hnil in Hin. }
  split; apply Hsel.
  - intros Hnil. apply (f_equal length) in Hnil. unfold slice_to in Hnil.
    rewrite length_take in Hnil. unfold slice_bound in Hnil. simpl in Hnil.
    destruct (Z.ltb_spec k 0); lia.
  - apply slice_to_subseteq.
  - intros Hnil. apply (f_equal length) in Hnil. unfold slice_from in Hnil.
    rewrite length_drop in Hnil. unfold slice_bound in Hnil. simpl in Hnil.
    destruct (Z.ltb_spec k 0); lia.
  - apply slice_from_subseteq.
Qed.

(** X16. The split is exact in episodes: whatever index [k] the cell
    computes, with [n] distinct episode ids in the frame the training
    frame holds the rows of exactly as many distinct episodes as the
    slice [unique_episode_ids[:k]] has ids ([k] clipped to [0 .. n], a
    negative [k] counting from the end), and the validation frame holds
    the rows of the remaining episodes. *)
Theorem split_episode_counts seed (k : Z) (df train_df val_df : list Payload) :
  split_at shuffle seed k df = Ok (train_df, val_df) ->
  length (unique (map payload_episode_id train_df)) =
    slice_bound k (length (unique (map payload_episode_id df)))
  /\ length (unique (map payload_episode_id val_df)) =
    length (unique (map payload_episode_id df))
    - slice_bound k (length (unique (map payload_episode_id df)))
  /\ length (unique (map payload_episode_id train_df))
     + length (unique (map payload_episode_id val_df)) =
     length (unique (map payload_episode_id df)).
Proof.
  intros Hs. destruct (split_at_counts _ _ _ _ _ Hs) as (Hn & Ht & Hv).
  split_and!; [done|done|].
  rewrite Ht, Hv.
  assert (slice_bound k (length (unique (map payload_episode_id df)))
          <= length (unique (map payload_episode_id df)))
    by (unfold slice_bound; destruct (Z.ltb_spec k 0); lia).
  lia.
Qed.

(** X17. Each of the two frames keeps its rows in the order of the
    frame that is split. *)
Theorem split_keeps_row_order seed val_fraction (df train_df val_df : list Payload) :
  split shuffle seed val_fraction df = Ok (train_df, val_df) ->
  sublist train_df df /\ sublist val_df df.
Proof.
  intros Hs. destruct (split_masks _ _ _ _ _ Hs) as (tr & va & -> & ->).
  split; apply bool_filter_sublist.
Qed.

End SplitCounts.

(** ** More on the upload *)

Lemma upload_cases df dataset_name gcp_client :
  let r := upload_dataset_to_gcp df dataset_name gcp_client in
  (reachable gcp_client = false /\ r = (gcp_client, Raise TransportError))
  \/ (reachable gcp_client = true
      /\ exists objects,
           buckets (ensure_bucket gcp_client) !! BUCKET_NAME = Some objects
           /\ ((is_Some (objects !! dataset_name)
                /\ r = (ensure_bucket gcp_client, Raise (PreconditionFailed dataset_name)))
               \/ (objects !! dataset_name = None
                   /\ r = ({| reachable := true;
                              buckets :=
                                <[BUCKET_NAME :=
                                    <[dataset_name := map google_messages df]> objects]>
                                  (buckets (ensure_bucket gcp_client)) |},
                           Ok None)))).
Proof.
  unfold upload_dataset_to_gcp.
  destruct (reachable gcp_client) eqn:Er; simpl; [right|by left].
  split; [done|].
  assert (exists objects, buckets (ensure_bucket gcp_client) !! BUCKET_NAME = Some objects)
    as [objects Ho].
  { unfold ensure_bucket.
    destruct (buckets gcp_client !! BUCKET_NAME) as [o|] eqn:E; simpl; [eauto|].
    rewrite lookup_insert_eq. eauto. }
  assert (reachable (ensure_bucket gcp_client) = true) as Er'.
  { unfold ensure_bucket. by destruct (buckets gcp_client !! BUCKET_NAME). }
  exists objects. split; [done|].
  unfold upload_from_filename. rewrite Ho.
  destruct (objects !! dataset_name) eqn:En; [left|right].
  - split; [eauto|done].
  - split; [done|]. by rewrite Er'.
Qed.

Lemma ensure_bucket_keeps st b objs :
  buckets st !! b = Some objs -> buckets (ensure_bucket st) !! b = Some objs.
Proof.
  intros H. unfold ensure_bucket.
  destruct (buckets st !! BUCKET_NAME) eqn:E; simpl; [done|].
  rewrite lookup_insert_ne; [done|]. intros <-. congruence.
Qed.

(** X18. [upload_dataset_to_gcp] never overwrites or removes anything:
    whatever the outcome of the call, every object that was in the
    storage before it is there afterwards, with the same content. *)
Theorem upload_keeps_existing_objects df dataset_name gcp_client
    (b n : string) (objs : gmap string (list GoogleMessages))
    (c : list GoogleMessages) :
  buckets gcp_client !! b = Some objs ->
  objs !! n = Some c ->
  exists objs',
    buckets (upload_dataset_to_gcp df dataset_name gcp_client).1 !! b = Some objs'
    /\ objs' !! n = Some c.
Proof.
  intros Hb Hn.
  destruct (upload_cases df dataset_name gcp_client)
    as [[_ ->]|(_ & objects & Ho & [[_ ->]|[Hfree ->]])]; simpl.
  - eauto.
  - exists objs. split; [by apply ensure_bucket_keeps|done].
  - apply ensure_bucket_keeps in Hb.
    destruct (decide (b = BUCKET_NAME)) as [->|Hne].
    + rewrite lookup_insert_eq. rewrite Ho in Hb. injection Hb as ->.
      eexists. split; [done|].
      rewrite lookup_insert_ne; [done|]. intros <-. congruence.
    + rewrite lookup_insert_ne; [|done]. eauto.
Qed.

(** X19. On a reachable storage that has no object of the given name in
    the bucket, the upload succeeds, and afterwards the bucket holds
    under that name the [google_messages] documents of the frame, one a
    line, in row order. *)
Theorem upload_stores_frame df dataset_name gcp_client :
  reachable gcp_client = true ->
  (forall objects, buckets gcp_client !! BUCKET_NAME = Some objects ->
                   objects !! dataset_name = None) ->
  exists st' objects',
    upload_dataset_to_gcp df dataset_name gcp_client = (st', Ok None)
    /\ buckets st' !! BUCKET_NAME = Some objects'
    /\ objects' !! dataset_name = Some (map google_messages df).
Proof.
  intros Hr Hfree.
  destruct (upload_cases df dataset_name gcp_client)
    as [[Hr' _]|(_ & objects & Ho & [[[o Hsome] _]|[_ ->]])].
  - congruence.
  - exfalso. unfold ensure_bucket in Ho.
    destruct (buckets gcp_client !! BUCKET_NAME) as [o'|] eqn:E; simpl in Ho.
    + rewrite E in Ho. injection Ho as ->. rewrite (Hfree _ eq_refl) in Hsome.
      discriminate.
    + rewrite lookup_insert_eq in Ho. injection Ho as <-.
      by rewrite lookup_empty in Hsome.
  - eexists _, _. split; [reflexivity|]. simpl.
    rewrite lookup_insert_eq. split; [done|]. by rewrite lookup_insert_eq.
Qed.

(** X20. A name is used once: after an upload under a name has
    succeeded, every further upload under that name raises
    [PreconditionFailed] and leaves the storage as it is. *)
Theorem second_upload_refused df df' dataset_name gcp_client st' r :
  upload_dataset_to_gcp df dataset_name gcp_client = (st', Ok r) ->
  upload_dataset_to_gcp df' dataset_name st' =
  (st', Raise (PreconditionFailed dataset_name)).
Proof.
  intros Hup.
  destruct (upload_cases df dataset_name gcp_client)
    as [[_ H]|(_ & objects & Ho & [[_ H]|[_ H]])];
    simpl in H; rewrite H in Hup; try discriminate.
  injection Hup as <- <-.
  eapply upload_existing_object; simpl; [done| |].
  - apply lookup_insert_eq.
  - rewrite lookup_insert_eq. eauto.
Qed.

(** ** More on [merge_messages] on the store *)

(** X21. The turns [merge_messages] returns own their parts lists: the
    parts lists of the returned turns are objects created by the call,
    and no two returned turns share one, even where input messages share
    a parts list. *)
Theorem merged_turns_own_their_parts (h : gmap loc obj) (messages : loc)
    (turns : list Turn) :
  read_turns h messages = Some turns ->
  exists h' merged (cells : list (loc * loc)),
    merge_messages_store h messages = Some (h', merged)
    /\ get_seq h' merged = Some cells.*1
    /\ Forall (fun cell => exists r, get_dict h' (fst cell) = Some (r, Some (snd cell)))
              cells
    /\ NoDup cells.*2
    /\ Forall (fun c => c ∉ dom h) cells.*2.
Proof.
  intros Hread. unfold read_turns in Hread.
  destruct (get_seq h messages) as [msgs|] eqn:Emsgs; [|discriminate].
  simpl in Hread. apply mapM_Some in Hread.
  unfold merge_messages_store. rewrite Emsgs. simpl.
  set (merged := fresh (dom h)). set (h1 := <[merged := OSeq []]> h).
  assert (merge_inv h h1 merged [] []) as Hinv.
  { split; try done.
    - apply alloc_subseteq.
    - apply lookup_insert_eq.
    - apply is_fresh.
    - constructor. }
  destruct (merge_loop_store_inv h msgs turns Hread _ _ _ _ Hinv)
    as (h' & cells & -> & [Hf Hm Hn Hc Hd]).
  simpl. exists h', merged, cells. split_and!; try done.
  - unfold get_seq. by rewrite Hm.
  - apply Forall_forall. intros [d c] Hin.
    apply list_elem_of_lookup in Hin as [i Hi].
    destruct (Forall2_lookup_l _ _ _ _ _ Hc Hi) as (t & _ & H1 & _).
    exists (role t). unfold get_dict. simpl in *. by rewrite H1.
  - apply Forall_fmap, Forall_forall. intros [d c] Hin.
    apply list_elem_of_lookup in Hin as [i Hi].
    destruct (Forall2_lookup_l _ _ _ _ _ Hc Hi) as (t & _ & _ & _ & _ & H4).
    done.
Qed.

(** ** The polling loop *)

Section PollProperties.

Variables SUCCEEDED FAILED CANCELLED : Z.

Local Abbreviation terminal' := (terminal SUCCEEDED FAILED CANCELLED).
Local Abbreviation poll' := (poll SUCCEEDED FAILED CANCELLED).
Local Abbreviation goes_on' := (goes_on SUCCEEDED FAILED CANCELLED).

Lemma poll_goes_on (pre post : list tick) (slept : nat) :
  forallb goes_on' pre = true ->
  poll' (pre ++ post) slept = poll' post (slept + length pre).
Proof.
  revert slept. induction pre as [|t pre IH]; intros slept; simpl.
  - intros _. f_equal. lia.
  - rewrite andb_true_iff. intros [Ht Hpre]. unfold goes_on in Ht.
    apply andb_true_iff in Ht as [Hs ->].
    destruct (state_read t) as [s|]; simpl in *.
    + apply negb_true_iff in Hs. rewrite Hs. rewrite (IH _ Hpre). f_equal. lia.
    + rewrite (IH _ Hpre). f_equal. lia.
Qed.

Lemma poll_cases (script : list tick) (slept : nat) :
  match poll' script slept with
  | (Stopped s, n) =>
      exists pre t post,
        script = pre ++ t :: post /\ forallb goes_on' pre = true
        /\ state_read t = Some s /\ terminal' s = true
        /\ n = slept + length pre
  | (RefreshRaised, n) =>
      exists pre t post,
        script = pre ++ t :: post /\ forallb goes_on' pre = true
        /\ refresh_ok t = false
        /\ (forall s, state_read t = Some s -> terminal' s = false)
        /\ n = slept + length pre
  | (Polling, n) =>
      forallb goes_on' script = true /\ n = slept + length script
  end.
Proof.
  revert slept. induction script as [|t script IH]; intros slept; simpl.
  { split; [done|lia]. }
  destruct (goes_on' t) eqn:Hgo.
  - (* the loop goes on to the next tick *)
    assert (poll' (t :: script) slept = poll' script (S slept)) as E.
    { change (t :: script) with ([t] ++ script).
      rewrite poll_goes_on; [f_equal; simpl; lia | simpl; by rewrite Hgo]. }
    simpl in E. rewrite E. specialize (IH (S slept)).
    destruct (poll' script (S slept)) as [[s'| |] n].
    + destruct IH as (pre & t' & post & -> & Hpre & Hs & Ht & ->).
      exists (t :: pre), t', post.
      split_and!; try done; simpl; rewrite ?Hgo; try done; lia.
    + destruct IH as (pre & t' & post & -> & Hpre & Hr & Hs & ->).
      exists (t :: pre), t', post.
      split_and!; try done; simpl; rewrite ?Hgo; try done; lia.
    + destruct IH as [Hall ->]. split; [done|lia].
  - (* the loop ends at this tick *)
    unfold goes_on in Hgo.
    destruct (state_read t) as [s|] eqn:Es; simpl in Hgo.
    + destruct (terminal' s) eqn:Et; simpl in Hgo.
      * exists [], t, script. split_and!; try done; simpl; lia.
      * rewrite Hgo. exists [], t, script.
        split_and!; try done; try (simpl; lia).
        intros m Hm. congruence.
    + rewrite Hgo. exists [], t, script.
      split_and!; try done; try (simpl; lia).
      intros m Hm. congruence.
Qed.

(** X22. The loop leaves by [break] only on a terminal state, and on the
    first one it reads: it stops with a state after [n] sleeps exactly
    when the first [n] iterations each read no terminal state (or failed
    to read the state) and refreshed, and iteration [n + 1] reads that
    state, which is one of succeeded, failed and cancelled. *)
Theorem poll_stops_at_first_terminal_state (script : list tick) (s : Z) (n : nat) :
  poll' script 0 = (Stopped s, n)
  <-> exists pre t post,
        script = pre ++ t :: post /\ forallb goes_on' pre = true
        /\ state_read t = Some s /\ terminal' s = true
        /\ n = length pre.
Proof.
  split.
  - intros H. pose proof (poll_cases script 0) as Hc. rewrite H in Hc.
    destruct Hc as (pre & t & post & ? & ? & ? & ? & ->). eauto 10.
  - intros (pre & t & post & -> & Hpre & Hs & Ht & ->).
    rewrite (poll_goes_on _ _ _ Hpre). simpl. by rewrite Hs, Ht.
Qed.

(** X23. The loop has no other way out than a terminal state or a
    failing refresh: on a script whose iterations each read a state that
    is not terminal, or fail to read the state, and then refresh, it is
    still running after the last of them, one sleep for each; an
    exception raised by reading the state never ends it. *)
Theorem poll_runs_on (script : list tick) (n : nat) :
  poll' script 0 = (Polling, n)
  <-> forallb goes_on' script = true /\ n = length script.
Proof.
  split.
  - intros H. pose proof (poll_cases script 0) as Hc. by rewrite H in Hc.
  - intros [Hall ->].
    rewrite <- (app_nil_r script) at 1.
    by rewrite (poll_goes_on _ _ _ Hall).
Qed.

(** X24. An exception raised by [response.refresh()] is not caught: the
    cell fails with it at the first iteration that reads no terminal
    state and whose refresh raises. *)
Theorem poll_refresh_exception_escapes (script : list tick) (n : nat) :
  poll' script 0 = (RefreshRaised, n)
  <-> exists pre t post,
        script = pre ++ t :: post /\ forallb goes_on' pre = true
        /\ refresh_ok t = false
        /\ (forall s, state_read t = Some s -> terminal' s = false)
        /\ n = length pre.
Proof.
  split.
  - intros H. pose proof (poll_cases script 0) as Hc. rewrite H in Hc.
    destruct Hc as (pre & t & post & ? & ? & ? & ? & ->). eauto 10.
  - intros (pre & t & post & -> & Hpre & Hr & Hs & ->).
    rewrite (poll_goes_on _ _ _ Hpre). simpl. rewrite Hr.
    destruct (state_read t) as [s|]; [|done]. by rewrite (Hs s eq_refl).
Qed.

End PollProperties.

(** ** The name of the tuned model *)

Lemma str_split_nonempty (sep : ascii) (s : string) : str_split sep s <> [].
Proof.
  destruct s as [|c s]; simpl; [done|].
  destruct (Ascii.eqb c sep); [done|]. by destruct (str_split sep s).
Qed.

(** Joining the pieces with the separator gives the text back. *)
Lemma str_join_split (sep : ascii) (s : string) : str_join sep (str_split sep s) = s.
Proof.
  induction s as [|c s IH]; simpl; [done|].
  destruct (Ascii.eqb c sep) eqn:E.
  - apply Ascii.eqb_eq in E as ->.
    pose proof (str_split_nonempty sep s) as Hne.
    destruct (str_split sep s) as [|p ps]; [done|]. by rewrite <- IH.
  - destruct (str_split sep s) as [|p ps]; [by rewrite <- IH|].
    destruct ps as [|q ps]; simpl in *; by rewrite <- IH.
Qed.

Lemma str_split_pieces (sep : ascii) (s : string) :
  Forall (fun p => sep ∉ list_ascii_of_string p) (str_split sep s).
Proof.
  induction s as [|c s IH]; simpl.
  - constructor; [|constructor]. simpl. apply not_elem_of_nil.
  - destruct (Ascii.eqb c sep) eqn:E.
    + constructor; [|done]. simpl. apply not_elem_of_nil.
    + destruct (str_split sep s) as [|p ps].
      * constructor; [|constructor]. simpl.
        intros H. apply list_elem_of_singleton in H as ->.
        by rewrite Ascii.eqb_refl in E.
      * inversion IH as [|? ? Hp Hps]; subst. constructor; [|done]. simpl.
        intros H. apply elem_of_cons in H as [->|H]; [|done].
        by rewrite Ascii.eqb_refl in E.
Qed.

Lemma string_app_assoc (a b c : string) : (a +:+ b) +:+ c = a +:+ (b +:+ c).
Proof.
  induction a as [|x a IH]; [done|].
  change (String x ((a +:+ b) +:+ c) = String x (a +:+ (b +:+ c))).
  by rewrite IH.
Qed.

Lemma str_join_snoc (sep : ascii) (ps : list string) (m : string) :
  str_join sep (ps ++ [m]) =
  match ps with
  | [] => m
  | _ :: _ => str_join sep ps +:+ String sep m
  end.
Proof.
  induction ps as [|p ps IH]; [done|].
  change ((p :: ps) ++ [m]) with (p :: (ps ++ [m])).
  destruct ps as [|q ps]; [done|].
  change (str_join sep (p :: (q :: ps) ++ [m]))
    with (p +:+ String sep (str_join sep ((q :: ps) ++ [m]))).
  rewrite IH.
  change (str_join sep (p :: q :: ps))
    with (p +:+ String sep (str_join sep (q :: ps))).
  by rewrite string_app_assoc.
Qed.

(** X25. Taking the model name from the endpoint name never fails, and
    the name taken is what follows the last slash: it has no slash in it,
    and the endpoint name is either that name alone or some text, a
    slash, and that name. *)
Theorem fine_tuned_model_after_last_slash (tuned_model_endpoint_name : string) :
  exists m,
    fine_tuned_model tuned_model_endpoint_name = Some m
    /\ ("/"%char ∉ list_ascii_of_string m)
    /\ (tuned_model_endpoint_name = m
        \/ exists before, tuned_model_endpoint_name = before +:+ String "/" m).
Proof.
  unfold fine_tuned_model.
  pose proof (str_split_nonempty "/" tuned_model_endpoint_name) as Hne.
  pose proof (str_split_pieces "/" tuned_model_endpoint_name) as Hp.
  pose proof (str_join_split "/" tuned_model_endpoint_name) as Hj.
  destruct (str_split "/" tuned_model_endpoint_name) as [|p ps] using rev_ind;
    [done|].
  clear IHps. exists p. rewrite last_snoc. split_and!.
  - done.
  - apply Forall_app in Hp as [_ Hp]. by inversion Hp.
  - rewrite str_join_snoc in Hj. destruct ps as [|q ps]; [by left|].
    right. by eexists.
Qed.

Example endpoint_name_to_model :
  fine_tuned_model "projects/123/locations/us-central1/endpoints/456" = Some "456"
  /\ fine_tuned_model "456" = Some "456"
  /\ fine_tuned_model "endpoints/" = Some "".
Proof. by split_and!. Qed.

(** ** The further properties on the sample inputs *)

Lemma rendered_message_blockwise_witness :
  render_chat_message Json.loads (msg_role sample_assistant_message)
    (content sample_assistant_message) = Ok sample_assistant_turn
  /\ role_map (msg_role sample_assistant_message) = Some (role sample_assistant_turn)
  /\ length (parts sample_assistant_turn) = length (content sample_assistant_message)
  /\ Forall2 (fun b p =>
                render_block Json.loads (msg_role sample_assistant_message) b = Ok p)
             (content sample_assistant_message) (parts sample_assistant_turn).
Proof.
  assert (render_chat_message Json.loads (msg_role sample_assistant_message)
            (content sample_assistant_message) = Ok sample_assistant_turn) as H
    by reflexivity.
  split; [exact H|].
  exact (rendered_message_blockwise Json.loads sample_assistant_message
           sample_assistant_turn H).
Defined.

Lemma sample_batch_raises_nothing :
  Forall (fun inf => raises (inference_to_google Json.loads inf) = false)
         sample_batch.
Proof. repeat constructor. Qed.

Lemma batch_without_exception_witness :
  Forall (fun inf => raises (inference_to_google Json.loads inf) = false) sample_batch
  /\ raised (convert_all Json.loads sample_batch) = None
  /\ google_payloads (convert_all Json.loads sample_batch) =
     omap (fun inf => result_value (inference_to_google Json.loads inf)) sample_batch
  /\ warnings (convert_all Json.loads sample_batch) =
     omap (fun inf => result_warning (inference_to_google Json.loads inf)) sample_batch
  /\ length (google_payloads (convert_all Json.loads sample_batch))
     + length (warnings (convert_all Json.loads sample_batch)) = length sample_batch.
Proof.
  split; [exact sample_batch_raises_nothing|].
  exact (batch_without_exception Json.loads sample_batch sample_batch_raises_nothing).
Defined.

Lemma batch_stops_at_first_exception_witness :
  Forall (fun inf => raises (inference_to_google Json.loads inf) = false)
         sample_batch_prefix
  /\ inference_to_google Json.loads malformed_call_record = Raise (JSONDecodeError "{")
  /\ convert_all Json.loads
       (sample_batch_prefix ++ malformed_call_record :: [tool_use_record]) =
     {| google_payloads :=
          omap (fun inf => result_value (inference_to_google Json.loads inf))
               sample_batch_prefix;
        warnings :=
          omap (fun inf => result_warning (inference_to_google Json.loads inf))
               sample_batch_prefix;
        raised := Some (JSONDecodeError "{") |}.
Proof.
  assert (Forall (fun inf => raises (inference_to_google Json.loads inf) = false)
            sample_batch_prefix)
    as Hpre by (repeat constructor).
  assert (inference_to_google Json.loads malformed_call_record =
          Raise (JSONDecodeError "{")) as He by reflexivity.
  split; [exact Hpre|]. split; [exact He|].
  exact (batch_stops_at_first_exception Json.loads sample_batch_prefix [tool_use_record]
           malformed_call_record (JSONDecodeError "{") Hpre He).
Defined.

Lemma payload_episode_ids_witness :
  Forall (fun inf => raises (inference_to_google Json.loads inf) = false) sample_batch
  /\ map payload_episode_id (google_payloads (convert_all Json.loads sample_batch)) =
     map episode_id (List.filter (valid Json.loads) sample_batch).
Proof.
  split; [exact sample_batch_raises_nothing|].
  exact (payload_episode_ids Json.loads sample_batch sample_batch_raises_nothing).
Defined.

Lemma payload_shape_witness :
  exists payload,
    inference_to_google Json.loads tool_use_record = Ok payload
    /\ exists out_parts before,
         render_output Json.loads (output tool_use_record) [] = Ok out_parts
         /\ last (contents (google_messages payload)) =
            Some {| role := "model"; parts := before ++ out_parts |}
         /\ alternating (contents (google_messages payload))
         /\ 1 <= length (contents (google_messages payload))
              <= length (messages (input tool_use_record)) + 1.
Proof.
  eexists. split; [reflexivity|].
  exact (payload_shape Json.loads tool_use_record _ eq_refl).
Defined.

Lemma empty_frame_iff_split_index_witness :
  split_at sample_shuffle 42 4 sample_frame = Ok (sample_train_df, sample_val_df)
  /\ (sample_val_df = [] <->
        (Z.of_nat (length (unique (map payload_episode_id sample_frame))) <= 4)%Z)
  /\ (sample_train_df = [] <->
        (4 = 0 \/ 4 <= - Z.of_nat (length (unique (map payload_episode_id sample_frame))))%Z).
Proof.
  assert (split_at sample_shuffle 42 4 sample_frame =
          Ok (sample_train_df, sample_val_df)) as Hs by reflexivity.
  split; [exact Hs|].
  exact (empty_frame_iff_split_index sample_shuffle sample_shuffle_perm 42 4
           sample_frame sample_train_df sample_val_df Hs).
Defined.

Lemma split_cell_both_nonempty_witness :
  2 <= length (unique (map payload_episode_id sample_frame))
  /\ exists train_df val_df,
       split_cell sample_shuffle sample_frame = Ok (train_df, val_df)
       /\ train_df <> [] /\ val_df <> [].
Proof.
  assert (2 <= length (unique (map payload_episode_id sample_frame))) as H
    by (vm_compute; lia).
  split; [exact H|].
  exact (split_cell_both_nonempty sample_shuffle sample_shuffle_perm sample_frame H).
Defined.

Lemma split_episode_counts_witness :
  split_at sample_shuffle 42 4 sample_frame = Ok (sample_train_df, sample_val_df)
  /\ length (unique (map payload_episode_id sample_train_df)) =
       slice_bound 4 (length (unique (map payload_episode_id sample_frame)))
  /\ length (unique (map payload_episode_id sample_val_df)) =
       length (unique (map payload_episode_id sample_frame))
       - slice_bound 4 (length (unique (map payload_episode_id sample_frame)))
  /\ length (unique (map payload_episode_id sample_train_df))
     + length (unique (map payload_episode_id sample_val_df)) =
     length (unique (map payload_episode_id sample_frame)).
Proof.
  assert (split_at sample_shuffle 42 4 sample_frame =
          Ok (sample_train_df, sample_val_df)) as Hs by reflexivity.
  split; [exact Hs|].
  exact (split_episode_counts sample_shuffle sample_shuffle_perm 42 4
           sample_frame sample_train_df sample_val_df Hs).
Defined.

(** The split at indices the exact arithmetic does not give: beyond the
    number of episodes every row is in the training frame, and a negative
    index leaves as many episodes to the validation frame. *)
Example sample_frame_split_at :
  split_at sample_shuffle 42 5 sample_frame = Ok (sample_frame, [])
  /\ split_at sample_shuffle 42 (-2) sample_frame =
     Ok ([row_of 1; row_of 2; row_of 1; row_of 3; row_of 2], [row_of 4; row_of 5]).
Proof. by split. Qed.

Lemma split_keeps_row_order_witness :
  split sample_shuffle 42 VAL_FRACTION sample_frame = Ok (sample_train_df, sample_val_df)
  /\ sublist sample_train_df sample_frame /\ sublist sample_val_df sample_frame.
Proof.
  assert (split sample_shuffle 42 VAL_FRACTION sample_frame = Ok (sample_train_df, sample_val_df))
    as Hs by reflexivity.
  split; [exact Hs|].
  exact (split_keeps_row_order sample_shuffle 42 VAL_FRACTION
           sample_frame sample_train_df sample_val_df Hs).
Defined.

Lemma upload_keeps_existing_objects_witness :
  (buckets storage_with_train !! BUCKET_NAME = Some train_bucket
   /\ train_bucket !! "train_0.jsonl" = Some (map google_messages sample_frame))
  /\ exists objs',
       buckets (upload_dataset_to_gcp one_episode_frame "val_0.jsonl"
                  storage_with_train).1 !! BUCKET_NAME = Some objs'
       /\ objs' !! "train_0.jsonl" = Some (map google_messages sample_frame).
Proof.
  assert (buckets storage_with_train !! BUCKET_NAME = Some train_bucket) as Hb
    by (vm_compute; reflexivity).
  assert (train_bucket !! "train_0.jsonl" = Some (map google_messages sample_frame)) as Hn
    by (vm_compute; reflexivity).
  split; [by split|].
  exact (upload_keeps_existing_objects one_episode_frame "val_0.jsonl"
           storage_with_train BUCKET_NAME "train_0.jsonl" train_bucket _ Hb Hn).
Defined.

Lemma upload_stores_frame_witness :
  (reachable empty_storage = true
   /\ forall objects, buckets empty_storage !! BUCKET_NAME = Some objects ->
                      objects !! "train_0.jsonl" = None)
  /\ exists st' objects',
       upload_dataset_to_gcp sample_frame "train_0.jsonl" empty_storage = (st', Ok None)
       /\ buckets st' !! BUCKET_NAME = Some objects'
       /\ objects' !! "train_0.jsonl" = Some (map google_messages sample_frame).
Proof.
  assert (reachable empty_storage = true) as Hr by reflexivity.
  assert (forall objects, buckets empty_storage !! BUCKET_NAME = Some objects ->
                          objects !! "train_0.jsonl" = None) as Hfree
    by (intros objects H; vm_compute in H; discriminate H).
  split; [by split|].
  exact (upload_stores_frame sample_frame "train_0.jsonl" empty_storage Hr Hfree).
Defined.

Lemma second_upload_refused_witness :
  upload_dataset_to_gcp sample_frame "train_0.jsonl" empty_storage =
    (storage_with_train, Ok None)
  /\ upload_dataset_to_gcp one_episode_frame "train_0.jsonl" storage_with_train =
     (storage_with_train, Raise (PreconditionFailed "train_0.jsonl")).
Proof.
  assert (upload_dataset_to_gcp sample_frame "train_0.jsonl" empty_storage =
          (storage_with_train, Ok None)) as H by (vm_compute; reflexivity).
  split; [exact H|].
  exact (second_upload_refused sample_frame one_episode_frame "train_0.jsonl"
           empty_storage storage_with_train None H).
Defined.

Lemma merged_turns_own_their_parts_witness :
  read_turns sample_store 1%positive =
    Some [{| role := "user"; parts := [PText "a"] |};
          {| role := "user"; parts := [PText "a"] |};
          {| role := "model"; parts := [] |}]
  /\ exists h' merged (cells : list (loc * loc)),
       merge_messages_store sample_store 1%positive = Some (h', merged)
       /\ get_seq h' merged = Some cells.*1
       /\ Forall (fun cell => exists r,
                    get_dict h' (fst cell) = Some (r, Some (snd cell))) cells
       /\ NoDup cells.*2
       /\ Forall (fun c => c ∉ dom sample_store) cells.*2.
Proof.
  assert (read_turns sample_store 1%positive =
    Some [{| role := "user"; parts := [PText "a"] |};
          {| role := "user"; parts := [PText "a"] |};
          {| role := "model"; parts := [] |}]) as H by (vm_compute; reflexivity).
  split; [exact H|].
  exact (merged_turns_own_their_parts sample_store 1%positive _ H).
Defined.

(** A job that is pending twice, unreadable once, and then succeeds (the
    state values are those of the service's enumeration). *)
Example poll_sample :
  poll 4 5 7
    [{| state_read := Some 2%Z; refresh_ok := true |};
     {| state_read := Some 3%Z; refresh_ok := true |};
     {| state_read := None; refresh_ok := true |};
     {| state_read := Some 4%Z; refresh_ok := true |};
     {| state_read := Some 3%Z; refresh_ok := true |}] 0
  = (Stopped 4, 3).
Proof. reflexivity. Qed.
